(** * The block-production worker of celo-blockchain (miner/worker.go)

    A shallow embedding of the loops [newWorkLoop], [taskLoop] and
    [resultLoop] of [miner/worker.go] and of the pending-snapshot
    accessors, with the theorems that relate them to the written
    specification of the pipeline.  Each loop is a function from the
    variables and worker fields it touches and one received message to
    their new values and the trace of calls it makes.

    Conventions
    - [common.Hash] is a 32-byte array; it is modelled by the number it
      encodes, the zero value [common.Hash{}] being [0].
    - Go pointers are locations (indices) into explicit heaps, so that
      aliasing between a task's receipts, the copies handed to the chain
      store and their logs is visible.
    - [uint64] and [int64] arithmetic wraps around as Go's does. *)

From Stdlib Require Import ZArith Lia.
From stdpp Require Import gmap list strings.

Local Open Scope Z_scope.

(** ** Machine integers *)

(** Go's [uint64]: arithmetic modulo 2^64. *)
Definition uint64 (z : Z) : Z := z mod 2 ^ 64.

(** Go's [int64]: two's complement, arithmetic wraps around. *)
Definition int64 (z : Z) : Z := (z + 2 ^ 63) mod 2 ^ 64 - 2 ^ 63.

(** ** Blocks, tasks *)

Abbreviation Hash := Z.
Abbreviation loc := nat.
Abbreviation error := (option string).

(** The zero value [common.Hash{}]. *)
Definition zeroHash : Hash := 0.

(** [types.Header] (declared in core/types): the fields the worker
    reads.  [Extra] stands for the part of the header that sealing
    fills in. *)
Record Header := mkHeader {
  ParentHash : Hash;
  Number : Z;          (* *big.Int *)
  Time : Z;            (* uint64, seconds *)
  Extra : Z
}.

(** [types.Block]: a header and the block hash [Hash()] reports for it. *)
Record Block := mkBlock {
  header : Header;
  hash : Hash
}.

(** [block.NumberU64()]: the low 64 bits of the header number. *)
Definition NumberU64 (b : Block) : Z := uint64 (Number (header b)).

(** [block.Time()] is the header's [uint64] time stamp. *)
Definition BlockTime (b : Block) : Z := uint64 (Time (header b)).

(** [task]: receipts and state are pointers, [createdAt] is the creation
    instant in nanoseconds. *)
Record task := mkTask {
  receipts : list loc;   (* []*types.Receipt *)
  state : loc;           (* *state.StateDB *)
  block : Block;
  createdAt : Z
}.

(** [consensus.Engine], the two methods the worker calls.  [Seal] is
    asynchronous: what it returns here is its synchronous error. *)
Record Engine := mkEngine {
  SealHash : Header -> Hash;
  Seal : Block -> loc -> error
}.

(** [staleThreshold] is the maximum depth of the acceptable stale block. *)
Definition staleThreshold : Z := 7.

Definition commitInterruptNone : Z := 0.
Definition commitInterruptNewHead : Z := 1.
Definition commitInterruptResubmit : Z := 2.

(** ** newWorkLoop *)

Module newWorkReq.
Record t := mk {
  interrupt : loc;     (* *int32 *)
  noempty : bool;
  timestamp : Z
}.
End newWorkReq.

Module newWorkLoop.

(** The loop's two variables, the [int32] cells [new(int32)] has
    allocated so far, and the worker fields the loop writes. *)
Record store := mkStore {
  interrupt : option loc;
  timestamp : Z;
  cells : list Z;
  newTxs : Z;
  pendingTasks : gmap Hash task
}.

Inductive event :=
| ClearPending (number : Z)
| StoreInt32 (p : loc) (v : Z)
| NewInt32 (p : loc)
| Send (req : newWorkReq.t).

(** The signals [select] can receive, with what the handler reads:
    [w.chain.CurrentBlock()] on start, the head block on a head event. *)
Inductive signal :=
| startCh (current : Block)
| chainHeadCh (head : Block).

(** The test of [clearPending]'s loop body,
    [t.block.NumberU64()+staleThreshold <= number], on [uint64]. *)
Definition stale (number : Z) (t : task) : bool :=
  bool_decide (uint64 (NumberU64 (block t) + staleThreshold) <= number).

(** [clearPending] deletes every stale entry of the map. *)
Definition clearPending (number : Z) (m : gmap Hash task) : gmap Hash task :=
  filter (fun kt => stale number kt.2 = false) m.

(** [commit].  [accepted] tells which case of the [select] fires: the
    send on [newWorkCh] ([true]) or [exitCh] ([false]). *)
Definition commit (noempty : bool) (s : Z) (accepted : bool) (st : store)
  : store * list event :=
  let '(cells1, ev1) :=
    match interrupt st with
    | Some p => (<[p := s]> (cells st), [StoreInt32 p s])
    | None => (cells st, [])
    end in
  let p' := length cells1 in
  let cells2 := cells1 ++ [0] in
  if accepted then
    (mkStore (Some p') (timestamp st) cells2 0 (pendingTasks st),
     ev1 ++ [NewInt32 p'; Send (newWorkReq.mk p' noempty (timestamp st))])
  else
    (mkStore (Some p') (timestamp st) cells2 (newTxs st) (pendingTasks st),
     ev1 ++ [NewInt32 p']).

(** The height a signal makes the loop pass to [clearPending]:
    [w.chain.CurrentBlock().NumberU64()] or [head.Block.NumberU64()]. *)
Definition signalNumber (sig : signal) : Z :=
  match sig with
  | startCh current => NumberU64 current
  | chainHeadCh head => NumberU64 head
  end.

(** One iteration of the loop on a start or head signal.  [now] is
    [time.Now().Unix()]. *)
Definition handle (sig : signal) (now : Z) (accepted : bool) (st : store)
  : store * list event :=
  let number := signalNumber sig in
  let st1 := mkStore (interrupt st) (timestamp st) (cells st) (newTxs st)
               (clearPending number (pendingTasks st)) in
  let st2 := mkStore (interrupt st1) now (cells st1) (newTxs st1)
               (pendingTasks st1) in
  let '(st3, ev) := commit false commitInterruptNewHead accepted st2 in
  (st3, ClearPending number :: ev).

(** The loop over a sequence of signals. *)
Fixpoint run (inputs : list (signal * Z * bool)) (st : store)
  : store * list event :=
  match inputs with
  | [] => (st, [])
  | (sig, now, accepted) :: rest =>
      let '(st1, ev1) := handle sig now accepted st in
      let '(st2, ev2) := run rest st1 in
      (st2, ev1 ++ ev2)
  end.

(** The state the goroutine starts in. *)
Definition init (m : gmap Hash task) : store := mkStore None 0 [] 0 m.

(** The build requests of a trace, in order. *)
Definition requests (tr : list event) : list newWorkReq.t :=
  omap (fun e => match e with Send r => Some r | _ => None end) tr.

(** The shape of the token cells the loop keeps: the cell [interrupt]
    points to is the last one and holds [commitInterruptNone]; every
    earlier cell holds [commitInterruptNewHead]. *)
Definition tokensOk (st : store) : Prop :=
  cells st =
    match interrupt st with
    | Some p => replicate p commitInterruptNewHead ++ [commitInterruptNone]
    | None => []
    end.

(** The highest height among the signals, [-1] when there is none. *)
Definition highest (inputs : list (signal * Z * bool)) : Z :=
  foldr (fun x acc => Z.max (signalNumber x.1.1) acc) (-1) inputs.

End newWorkLoop.

(** ** taskLoop *)

Module taskLoop.

(** The worker fields the loop reads: the engine and the test hooks.
    [newTaskHook] tells whether that hook is set; its call is an event. *)
Record worker := mkWorker {
  engine : Engine;
  newTaskHook : bool;
  skipSealHook : option (task -> bool)
}.

(** The loop's variables [stopCh] and [prev], the channels made so far
    (the flag tells whether the channel is closed) and [w.pendingTasks]. *)
Record store := mkStore {
  stopCh : option loc;
  prev : Hash;
  chans : list bool;
  pendingTasks : gmap Hash task
}.

Inductive event :=
| NewTaskHook (t : task)
| Close (c : loc)
| SkipSealHook (t : task)
| EngineSeal (b : Block) (stop : loc)
| LogWarn (msg : string).

(** [interrupt] aborts the in-flight sealing task. *)
Definition interrupt (st : store) : store * list event :=
  match stopCh st with
  | Some c => (mkStore None (prev st) (<[c := true]> (chans st)) (pendingTasks st),
               [Close c])
  | None => (st, [])
  end.

(** [w.engine.SealHash(task.block.Header())]. *)
Definition sealHashOf (w : worker) (t : task) : Hash :=
  SealHash (engine w) (header (block t)).

(** The call of [newTaskHook], when the hook is set. *)
Definition hookTrace (w : worker) (t : task) : list event :=
  if newTaskHook w then [NewTaskHook t] else [].

(** One iteration of the loop on a task received from [taskCh]. *)
Definition step (w : worker) (t : task) (st : store) : store * list event :=
  let ev0 := hookTrace w t in
  let sealHash := sealHashOf w t in
  if decide (sealHash = prev st) then (st, ev0)
  else
    let '(st1, ev1) := interrupt st in
    let c := length (chans st1) in
    let st2 := mkStore (Some c) sealHash (chans st1 ++ [false]) (pendingTasks st1) in
    let '(skip, ev2) :=
      match skipSealHook w with
      | Some hook => (hook t, [SkipSealHook t])
      | None => (false, [])
      end in
    if skip then (st2, ev0 ++ ev1 ++ ev2)
    else
      let st3 := mkStore (stopCh st2) (prev st2) (chans st2)
                   (<[sealHash := t]> (pendingTasks st2)) in
      let ev3 :=
        match Seal (engine w) (block t) c with
        | Some _ => [EngineSeal (block t) c; LogWarn "Block sealing failed"]
        | None => [EngineSeal (block t) c]
        end in
      (st3, ev0 ++ ev1 ++ ev2 ++ ev3).

Fixpoint run (w : worker) (ts : list task) (st : store) : store * list event :=
  match ts with
  | [] => (st, [])
  | t :: rest =>
      let '(st1, ev1) := step w t st in
      let '(st2, ev2) := run w rest st1 in
      (st2, ev1 ++ ev2)
  end.

(** The state the goroutine starts in: no channel, [prev] the zero hash. *)
Definition init (m : gmap Hash task) : store := mkStore None zeroHash [] m.

(** The blocks the trace delegates to the engine's [Seal], in order. *)
Definition sealed (tr : list event) : list Block :=
  omap (fun e => match e with EngineSeal b _ => Some b | _ => None end) tr.

(** How many times the trace calls [Seal]. *)
Definition seals (tr : list event) : nat := length (sealed tr).

(** The [exitCh] case of the loop: interrupt and return. *)
Definition exit (st : store) : store * list event := interrupt st.

(** The channels still open are the current [stopCh] and no other. *)
Definition oneInFlight (st : store) : Prop :=
  forall c, chans st !! c = Some false <-> stopCh st = Some c.

(** The skip hook, if there is one, lets the task through. *)
Definition passes (w : worker) (t : task) : Prop :=
  match skipSealHook w with
  | Some hook => hook t = false
  | None => True
  end.

End taskLoop.

(** ** Receipts and logs *)

(** [types.Log]. *)
Module Log.
Record t := mk {
  Address : Z;
  Topics : list Hash;
  Data : list Z;
  BlockNumber : Z;
  TxHash : Hash;
  TxIndex : Z;
  BlockHash : Hash;
  Index : Z
}.
Definition setBlockHash (h : Hash) (l : t) : t :=
  mk (Address l) (Topics l) (Data l) (BlockNumber l) (TxHash l) (TxIndex l) h (Index l).
Definition setTxHash (h : Hash) (l : t) : t :=
  mk (Address l) (Topics l) (Data l) (BlockNumber l) h (TxIndex l) (BlockHash l) (Index l).
End Log.

(** [types.Receipt].  [Logs] is a slice of pointers to logs. *)
Module Receipt.
Record t := mk {
  Status : Z;
  CumulativeGasUsed : Z;
  Logs : list loc;
  TxHash : Hash;
  GasUsed : Z;
  BlockHash : Hash;
  BlockNumber : Z;
  TransactionIndex : Z
}.
(** The three assignments that add the block location fields. *)
Definition locate (h : Hash) (number : Z) (i : nat) (r : t) : t :=
  mk (Status r) (CumulativeGasUsed r) (Logs r) (TxHash r) (GasUsed r)
     h number (Z.of_nat i).
End Receipt.

(** The objects receipts and logs point to. *)
Record heap := mkHeap {
  receiptsAt : list Receipt.t;
  logsAt : list Log.t
}.

(** [core.BlockChain], the two methods [resultLoop] calls.  The write is
    given the pointers and the heap they point into. *)
Class BlockChain (C : Type) := {
  HasBlock : C -> Hash -> Z -> bool;
  WriteBlockWithState :
    C -> Block -> list loc -> list loc -> loc -> bool -> heap -> C * error
}.

(** ** resultLoop *)

Module resultLoop.

Record store (C : Type) := mkStore {
  chain : C;
  pendingTasks : gmap Hash task;
  mem : heap
}.
Arguments mkStore {C} _ _ _.
Arguments chain {C} _.
Arguments pendingTasks {C} _.
Arguments mem {C} _.

Inductive event :=
| LogError (msg : string)
| Write (b : Block) (receipts logs : list loc) (st : loc) (emitHeadEvent : bool)
| GaugeUpdate (v : Z)
| LogInfo (msg : string)
| Post (b : Block).

(** The body of the inner loop, on the log object itself: the block hash
    is set, and so is the transaction hash of a block-finalization log. *)
Definition stampLog (hash : Hash) (l : Log.t) : Log.t :=
  let l1 := Log.setBlockHash hash l in
  if decide (Log.TxHash l1 = zeroHash) then Log.setTxHash hash l1 else l1.

(** The inner loop [for _, log := range receipt.Logs].  Dereferencing a
    pointer that points nowhere panics: [None]. *)
Fixpoint stampLogs (hash : Hash) (ls : list loc) (hl : list Log.t)
  : option (list Log.t) :=
  match ls with
  | [] => Some hl
  | p :: rest =>
      match hl !! p with
      | None => None
      | Some l => stampLogs hash rest (<[p := stampLog hash l]> hl)
      end
  end.

(** The loop [for i, receipt := range task.receipts], from index [i] on.
    [out] and [logs] are the slices [receipts] and [logs] built so far. *)
Fixpoint stampReceipts (hash : Hash) (number : Z) (i : nat) (rs : list loc)
    (m : heap) (out logs : list loc) : option (heap * list loc * list loc) :=
  match rs with
  | [] => Some (m, out, logs)
  | p :: rest =>
      match receiptsAt m !! p with
      | None => None
      | Some receipt =>
          let r1 := Receipt.locate hash number i receipt in
          let hr1 := <[p := r1]> (receiptsAt m) in
          let q := length hr1 in               (* new(types.Receipt) *)
          let hr2 := hr1 ++ [r1] in            (* *receipts[i] = *receipt *)
          match stampLogs hash (Receipt.Logs r1) (logsAt m) with
          | None => None
          | Some hl =>
              stampReceipts hash number (S i) rest (mkHeap hr2 hl)
                (out ++ [q]) (logs ++ Receipt.Logs r1)
          end
      end
  end.

(** The value the gauge is updated with for a block written at [now]:
    [time.Now().UnixNano() - int64(block.Time())*1000000000]. *)
Definition finalizationTime (now : Z) (b : Block) : Z :=
  int64 (now - int64 (int64 (BlockTime b) * 1000000000)).

(** One iteration of the loop on a result received from [resultCh].
    [now] is [time.Now().UnixNano()]; [None] is a panic. *)
Definition step {C} {bc : BlockChain C} (engine : Engine) (result : option Block)
    (now : Z) (st : store C) : option (store C * list event) :=
  match result with
  | None => Some (st, [])
  | Some block =>
      if HasBlock (chain st) (hash block) (NumberU64 block) then Some (st, [])
      else
        let sealhash := SealHash engine (header block) in
        let hash := hash block in
        match pendingTasks st !! sealhash with
        | None => Some (st, [LogError "Block found but no relative pending task"])
        | Some task =>
            match stampReceipts hash (Number (header block)) 0 (receipts task)
                    (mem st) [] [] with
            | None => None
            | Some (m, receipts, logs) =>
                let '(chain1, err) :=
                  WriteBlockWithState (chain st) block receipts logs
                    (state task) true m in
                let st1 := mkStore chain1 (pendingTasks st) m in
                let w := Write block receipts logs (state task) true in
                match err with
                | Some _ => Some (st1, [w; LogError "Failed writing block to chain"])
                | None =>
                    Some (st1,
                      [w;
                       GaugeUpdate (finalizationTime now block);
                       LogInfo "Successfully sealed new block";
                       Post block])
                end
            end
        end
  end.

(** The loop over a sequence of results, each with its clock reading. *)
Fixpoint run {C} {bc : BlockChain C} (engine : Engine)
    (results : list (option Block * Z)) (st : store C)
  : option (store C * list event) :=
  match results with
  | [] => Some (st, [])
  | (result, now) :: rest =>
      match step engine result now st with
      | None => None
      | Some (st1, ev1) =>
          match run engine rest st1 with
          | None => None
          | Some (st2, ev2) => Some (st2, ev1 ++ ev2)
          end
      end
  end.

(** The receipts and logs of a task are allocated. *)
Definition allocated (m : heap) (t : task) : Prop :=
  forall p, p ∈ receipts t ->
    exists r, receiptsAt m !! p = Some r /\
      forall l, l ∈ Receipt.Logs r -> is_Some (logsAt m !! l).

(** The same for a list of receipt pointers, with bounds for lookups: what
    the receipt loop needs of the heap. *)
Definition receiptsOk (m : heap) (rs : list loc) : Prop :=
  Forall (fun p => exists r, receiptsAt m !! p = Some r /\
            Forall (fun l => (l < length (logsAt m))%nat) (Receipt.Logs r)) rs.

(** The log pointers of the receipts [rs] point to, in order. *)
Definition logsOf (m : heap) (rs : list loc) : list loc :=
  flat_map (fun p => match receiptsAt m !! p with
                     | Some r => Receipt.Logs r
                     | None => []
                     end) rs.

(** The chain-store writes of a trace: block, receipts and logs handed
    over, in order. *)
Definition writes (tr : list event) : list (Block * list loc * list loc) :=
  omap (fun e => match e with
                 | Write b receipts logs _ _ => Some (b, receipts, logs)
                 | _ => None
                 end) tr.

(** The blocks of the new-mined-block events of a trace, in order. *)
Definition posts (tr : list event) : list Block :=
  omap (fun e => match e with Post b => Some b | _ => None end) tr.

(** The blocks of the chain-store writes of a trace, in order. *)
Definition written (tr : list event) : list Block :=
  (fun x => x.1.1) <$> writes tr.

End resultLoop.

(** ** The pending snapshot *)

Module snapshot.

(** Modelled from the spec: [state.StateDB] and its [Copy] are in
    core/state, outside the files at hand.  The spec asks for an
    explicit clone operation on the execution state that gives the
    reader an independent copy: the clone is a new object with the
    contents of the old one. *)
Record StateDB := mkStateDB {
  storage : gmap Hash Z
}.

(** Modelled from the spec: a write to the state object at [p]. *)
Definition SetState (p : loc) (k : Hash) (v : Z) (h : list StateDB) : list StateDB :=
  match h !! p with
  | Some s => <[p := mkStateDB (<[k := v]> (storage s))]> h
  | None => h
  end.

(** Modelled from the spec: [Copy], see [StateDB]. *)
Definition Copy (p : loc) (h : list StateDB) : option (loc * list StateDB) :=
  match h !! p with
  | Some s => Some (length h, h ++ [s])
  | None => None
  end.

Record worker := mkWorker {
  snapshotBlock : option Block;
  snapshotState : option loc
}.

(** [pending] returns the pending state and corresponding block. *)
Definition pending (w : worker) (h : list StateDB)
  : option (option Block * option loc * list StateDB) :=
  match snapshotState w with
  | None => Some (None, None, h)
  | Some p =>
      match Copy p h with
      | Some (q, h1) => Some (snapshotBlock w, Some q, h1)
      | None => None
      end
  end.

(** [pendingBlock] returns pending block. *)
Definition pendingBlock (w : worker) : option Block := snapshotBlock w.

End snapshot.

(** ** copyReceipts *)

(** The loop of [copyReceipts], [cpy := *l; result[i] = &cpy], from the
    receipts left to copy: each copy is a new object.  [None] is the
    panic of dereferencing a pointer that points nowhere. *)
Fixpoint copyReceiptsFrom (rs : list loc) (hr : list Receipt.t) (result : list loc)
  : option (list Receipt.t * list loc) :=
  match rs with
  | [] => Some (hr, result)
  | l :: rest =>
      match hr !! l with
      | None => None
      | Some cpy => copyReceiptsFrom rest (hr ++ [cpy]) (result ++ [length hr])
      end
  end.

(** [copyReceipts] makes a deep copy of the given receipts. *)
Definition copyReceipts (rs : list loc) (hr : list Receipt.t)
  : option (list Receipt.t * list loc) :=
  copyReceiptsFrom rs hr [].

(** ** contract_comm/caller *)

Module caller.

(** The errors the caller tells apart, and any other. *)
Inductive err :=
| ErrSmartContractNotDeployed
| ErrRegistryContractNotDeployed
| ErrNoInternalEvmHandlerSingleton
| ErrOther (msg : string).

(** A value of the interface [vm.StateDB]: the nil interface, a nil
    pointer inside the interface, or a state object. *)
Inductive StateDB :=
| nilInterface
| nilPointer
| stateAt (p : loc).

(** [state == nil || reflect.ValueOf(state).IsNil()]. *)
Definition isNil (s : StateDB) : bool :=
  match s with
  | stateAt _ => false
  | _ => true
  end.

(** [vm.ChainContext], what [createEVM] asks of it: [CurrentHeader()]
    and [State()], which returns a state and an error. *)
Record ChainContext := mkChain {
  CurrentHeader : Header;
  State : StateDB * option err
}.

Record ContractCaller := mkCaller {
  chain : option ChainContext
}.

(** What [vm.NewEVM] is built from here: header and state. *)
Record EVM := mkEVM {
  evmHeader : Header;
  evmState : StateDB
}.

(** The arguments of a contract call that are passed through. *)
Record call := mkCall {
  abi : Z;
  funcName : string;
  args : list Z
}.

(** The functions of package vm the caller uses: the registry lookup
    and the two system calls, each returning the gas left and an
    error. *)
Record VM := mkVM {
  GetRegisteredAddressWithEvm : Z -> EVM -> option Z * option err;
  StaticCallFromSystem : EVM -> Z -> call -> Z -> Z * option err;
  CallFromSystem : EVM -> Z -> call -> Z -> option Z -> Z * option err
}.

Inductive event :=
| ChainState
| LogError (msg : string)
| LogDebug (msg : string)
| TimerUpdateSince (name : string)
| RegistryLookup (registryId : Z) (evm : EVM)
| StaticCall (evm : EVM) (scAddress : Z) (cl : call) (gas : Z)
| Call (evm : EVM) (scAddress : Z) (cl : call) (gas : Z) (value : option Z)
| Finalise (s : StateDB) (deleteEmptyObjects : bool).

(** [createEVM]: the EVM or the error, and the calls made. *)
Definition createEVM (c : ContractCaller) (header : option Header) (state : StateDB)
  : (EVM + err) * list event :=
  match chain c with
  | None => (inr ErrNoInternalEvmHandlerSingleton, [])
  | Some ch =>
      let header := match header with
                    | None => CurrentHeader ch
                    | Some h => h
                    end in
      if isNil state then
        match State ch with
        | (_, Some e) =>
            (inr e, [ChainState;
                     LogError "Error in retrieving the state from the blockchain"])
        | (s, None) => (inl (mkEVM header s), [ChainState])
        end
      else (inl (mkEVM header state), [])
  end.

Definition GetRegisteredAddress (vm : VM) (c : ContractCaller) (registryId : Z)
    (header : option Header) (state : StateDB)
  : (option Z * option err) * list event :=
  match createEVM c header state with
  | (inr e, ev) => ((None, Some e), ev)
  | (inl vmevm, ev) =>
      (GetRegisteredAddressWithEvm vm registryId vmevm,
       ev ++ [RegistryLookup registryId vmevm])
  end.

(** [makeCallFromSystem].  The deferred [timer.UpdateSince] runs on
    every way out. *)
Definition makeCallFromSystem (vm : VM) (c : ContractCaller) (scAddress : Z)
    (cl : call) (gas : Z) (value : option Z) (header : option Header)
    (state : StateDB) (static : bool) : (Z * option err) * list event :=
  let timer := TimerUpdateSince ("contract_comm/systemcall/" ++ funcName cl) in
  match createEVM c header state with
  | (inr e, ev) => ((0, Some e), ev ++ [timer])
  | (inl vmevm, ev) =>
      let '((gasLeft, e), evc) :=
        if static
        then (StaticCallFromSystem vm vmevm scAddress cl gas,
              [StaticCall vmevm scAddress cl gas])
        else (CallFromSystem vm vmevm scAddress cl gas value,
              [Call vmevm scAddress cl gas value]) in
      match e with
      | Some _ =>
          ((gasLeft, e),
           ev ++ evc ++ [LogError "Error when invoking evm function"; timer])
      | None => ((gasLeft, None), ev ++ evc ++ [timer])
      end
  end.

(** The log line [makeCallWithContractId] writes for an error of the
    registry lookup: debug level for the two not-deployed errors, error
    level for any other. *)
Definition lookupFailureLog (e : err) : event :=
  match e with
  | ErrSmartContractNotDeployed => LogDebug "Contract not yet registered"
  | ErrRegistryContractNotDeployed => LogDebug "Registry contract not yet deployed"
  | _ => LogError "Error in getting registered address"
  end.

(** [makeCallWithContractId].  [None] is the panic of [*scAddress] on a
    nil address returned without an error. *)
Definition makeCallWithContractId (vm : VM) (c : ContractCaller) (registryId : Z)
    (cl : call) (gas : Z) (value : option Z) (header : option Header)
    (state : StateDB) (static : bool) : option ((Z * option err) * list event) :=
  match GetRegisteredAddress vm c registryId header state with
  | ((_, Some e), ev) =>
      Some ((0, Some e), ev ++ [lookupFailureLog e])
  | ((None, None), _) => None
  | ((Some scAddress, None), ev) =>
      let '((gasLeft, e), ev2) :=
        makeCallFromSystem vm c scAddress cl gas value header state static in
      Some ((gasLeft, e),
            ev ++ ev2 ++
            match e with
            | Some _ => [LogError "Error in executing function on registered contract"]
            | None => []
            end)
  end.

Definition MakeStaticCall (vm : VM) (c : ContractCaller) (registryId : Z)
    (cl : call) (gas : Z) (header : option Header) (state : StateDB)
  : option ((Z * option err) * list event) :=
  makeCallWithContractId vm c registryId cl gas None header state true.

(** [MakeCall].  [state.Finalise(true)] on the nil interface panics. *)
Definition MakeCall (vm : VM) (c : ContractCaller) (registryId : Z)
    (cl : call) (gas : Z) (value : option Z) (header : option Header)
    (state : StateDB) (finaliseState : bool)
  : option ((Z * option err) * list event) :=
  match makeCallWithContractId vm c registryId cl gas value header state false with
  | None => None
  | Some ((gasLeft, e), ev) =>
      match e with
      | None =>
          if finaliseState then
            match state with
            | nilInterface => None
            | _ => Some ((gasLeft, e), ev ++ [Finalise state true])
            end
          else Some ((gasLeft, e), ev)
      | Some _ => Some ((gasLeft, e), ev)
      end
  end.

Definition MakeStaticCallWithAddress (vm : VM) (c : ContractCaller) (scAddress : Z)
    (cl : call) (gas : Z) (header : option Header) (state : StateDB)
  : (Z * option err) * list event :=
  makeCallFromSystem vm c scAddress cl gas None header state true.

(** The calls into contracts of a trace. *)
Definition isContractCall (e : event) : bool :=
  match e with
  | StaticCall _ _ _ _ | Call _ _ _ _ _ => true
  | _ => false
  end.

Definition isFinalise (e : event) : bool :=
  match e with
  | Finalise _ _ => true
  | _ => false
  end.

Definition isTimer (e : event) : bool :=
  match e with
  | TimerUpdateSince _ => true
  | _ => false
  end.

End caller.

(** ** start, stop, close *)

Module lifecycle.

(** The worker fields the three methods touch: the atomic [running]
    counter, whether [exitCh] is closed, and whether the engine is a
    [consensus.Istanbul] ([isIstanbulEngine]). *)
Record worker := mkWorker {
  running : Z;
  exitClosed : bool;
  isIstanbulEngine : bool
}.

Inductive event :=
| SendStart
| SetBlockProcessors
| StartValidating
| StopValidating
| CloseExit.

(** [start].  [primary] is what [istanbul.IsPrimary()] answers. *)
Definition start (primary : bool) (w : worker) : worker * list event :=
  (mkWorker 1 (exitClosed w) (isIstanbulEngine w),
   SendStart ::
   if isIstanbulEngine w
   then SetBlockProcessors :: (if primary then [StartValidating] else [])
   else []).

(** [stop]. *)
Definition stop (w : worker) : worker * list event :=
  (mkWorker 0 (exitClosed w) (isIstanbulEngine w),
   if isIstanbulEngine w then [StopValidating] else []).



(** A call of [start] or [stop]. *)
Inductive op :=
| Start (primary : bool)
| Stop.

Definition apply (o : op) (w : worker) : worker * list event :=
  match o with
  | Start primary => start primary w
  | Stop => stop w
  end.

(** A sequence of calls. *)
Fixpoint run (ops : list op) (w : worker) : worker * list event :=
  match ops with
  | [] => (w, [])
  | o :: rest =>
      let '(w1, ev1) := apply o w in
      let '(w2, ev2) := run rest w1 in
      (w2, ev1 ++ ev2)
  end.



End lifecycle.

(** ** Sample data *)

Module sample.

Definition headerAt (number seal : Z) : Header := mkHeader 0 number 0 seal.

(** A task whose block sits at the given height. *)
Definition taskAt (number : Z) : task :=
  mkTask [] 0%nat (mkBlock (headerAt number 0) (1000 + number)) 0.

(** An engine whose seal hash leaves the seal field [Extra] out, and
    whose [Seal] never fails on the spot. *)
Definition engine : Engine :=
  mkEngine (fun h => 500 + Number h) (fun _ _ => None).

(** A worker without test hooks, and one whose skip hook vetoes all. *)
Definition plainWorker : taskLoop.worker := taskLoop.mkWorker engine false None.
Definition vetoWorker : taskLoop.worker :=
  taskLoop.mkWorker engine false (Some (fun _ => true)).

(** A chain store that remembers hash and height of the blocks written
    to it, and one of the same kind whose writes fail. *)
Definition memChain : BlockChain (list (Hash * Z)) :=
  {| HasBlock c h n := bool_decide ((h, n) ∈ c);
     WriteBlockWithState c b _ _ _ _ _ := ((hash b, NumberU64 b) :: c, None) |}.
Definition fullChain : BlockChain (list (Hash * Z)) :=
  {| HasBlock c h n := bool_decide ((h, n) ∈ c);
     WriteBlockWithState c b _ _ _ _ _ := (c, Some "write failed") |}.

(** A block-finalization log (zero transaction hash) and a log of
    transaction 77, both of one receipt. *)
Definition log0 : Log.t := Log.mk 7 [] [] 5 zeroHash 0 zeroHash 0.
Definition log1 : Log.t := Log.mk 7 [] [] 5 77 0 zeroHash 1.
Definition receipt0 : Receipt.t :=
  Receipt.mk 1 21000 [0%nat; 1%nat] 77 21000 zeroHash 0 0.
Definition heap0 : heap := mkHeap [receipt0] [log0; log1].

(** A pending task at height 5 created at 4 s, and two sealed blocks for
    it that differ in the seal only. *)
Definition task5 : task :=
  mkTask [0%nat] 0%nat (mkBlock (mkHeader 0 5 2 0) 100) 4000000000.
Definition sealedA : Block := mkBlock (mkHeader 0 5 2 1) 101.
Definition sealedB : Block := mkBlock (mkHeader 0 5 2 2) 102.
Definition store0 : resultLoop.store (list (Hash * Z)) :=
  resultLoop.mkStore [] {[ 505 := task5 ]} heap0.

(** An engine whose [Seal] fails on the spot, and a worker with it. *)
Definition failingEngine : Engine :=
  mkEngine (fun h => 500 + Number h) (fun _ _ => Some "sealing failed").
Definition failingWorker : taskLoop.worker :=
  taskLoop.mkWorker failingEngine false None.

(** A chain with a state, a caller on it, and a registry that knows
    contract 1 at address 42; calls succeed and use up some gas. *)
Definition chain0 : caller.ChainContext :=
  caller.mkChain (headerAt 9 0) (caller.stateAt 3, None).
Definition caller0 : caller.ContractCaller := caller.mkCaller (Some chain0).
Definition vm0 : caller.VM :=
  caller.mkVM
    (fun id _ => if decide (id = 1) then (Some 42, None)
                 else (None, Some caller.ErrSmartContractNotDeployed))
    (fun _ _ _ gas => (gas - 100, None))
    (fun _ _ _ gas _ => (gas - 200, None)).
(** The same registry, with calls that fail after using 5 gas. *)
Definition revertingVM : caller.VM :=
  caller.mkVM
    (fun id _ => if decide (id = 1) then (Some 42, None)
                 else (None, Some caller.ErrSmartContractNotDeployed))
    (fun _ _ _ gas => (gas - 5, Some (caller.ErrOther "reverted")))
    (fun _ _ _ gas _ => (gas - 5, Some (caller.ErrOther "reverted"))).
Definition call0 : caller.call := caller.mkCall 0 "getValidators" [].

End sample.

(** * Theorems *)

Lemma uint64_range z : 0 <= uint64 z < 2 ^ 64.
Proof. unfold uint64. apply Z.mod_pos_bound. lia. Qed.

Lemma uint64_small z : 0 <= z < 2 ^ 64 -> uint64 z = z.
Proof. intros H. unfold uint64. by apply Z.mod_small. Qed.

Lemma uint64_le z : 0 <= z -> uint64 z <= z.
Proof. intros H. unfold uint64. apply Z.mod_le; lia. Qed.

Lemma NumberU64_range b : 0 <= NumberU64 b < 2 ^ 64.
Proof. apply uint64_range. Qed.

(** ** newWorkLoop *)

Lemma clearPending_lookup number (m : gmap Hash task) k t :
  newWorkLoop.clearPending number m !! k = Some t <->
  m !! k = Some t /\ newWorkLoop.stale number t = false.
Proof. unfold newWorkLoop.clearPending. by rewrite map_lookup_filter_Some. Qed.

Lemma stale_false number t :
  newWorkLoop.stale number t = false <->
  number < uint64 (NumberU64 (block t) + staleThreshold).
Proof.
  unfold newWorkLoop.stale. rewrite bool_decide_eq_false. lia.
Qed.

(** C3, as the specification words it, fails: a task whose height is
    within 7 of the top of [uint64] has [h + 7 > n] for every height [n],
    yet the wrapped sum makes it stale. *)
Lemma clearPending_wraps :
  let t := sample.taskAt (2 ^ 64 - 1) in
  let m : gmap Hash task := {[ 1 := t ]} in
  m !! 1 = Some t /\
  NumberU64 (block t) + 7 > 6 /\
  newWorkLoop.clearPending 6 m !! 1 = None.
Proof. vm_compute. done. Qed.

(** C3 (amended): after [clearPending n] no task with [h + 7 <= n] is left
    and nothing was added; every task with [h + 7 > n] whose sum does not
    overflow [uint64] is still there.  In particular a task at height [h]
    is gone at [n = h + 7] and still present at [n = h + 6]. *)
Theorem clearPending_stale_threshold (n : Z) (m : gmap Hash task) :
  (forall k t, newWorkLoop.clearPending n m !! k = Some t ->
     m !! k = Some t /\ ~ (NumberU64 (block t) + 7 <= n)) /\
  (forall k t, m !! k = Some t ->
     NumberU64 (block t) + 7 < 2 ^ 64 ->
     NumberU64 (block t) + 7 > n ->
     newWorkLoop.clearPending n m !! k = Some t) /\
  (forall k t, m !! k = Some t ->
     NumberU64 (block t) + 7 < 2 ^ 64 ->
     newWorkLoop.clearPending (NumberU64 (block t) + 7) m !! k = None /\
     newWorkLoop.clearPending (NumberU64 (block t) + 6) m !! k = Some t).
Proof.
  assert (Hkeep : forall n' k t, m !! k = Some t ->
            NumberU64 (block t) + 7 < 2 ^ 64 -> NumberU64 (block t) + 7 > n' ->
            newWorkLoop.clearPending n' m !! k = Some t).
  { intros n' k t Hk Hov Hgt. apply clearPending_lookup. split; [done|].
    apply stale_false. unfold staleThreshold.
    rewrite uint64_small; [lia|]. pose proof (NumberU64_range (block t)). lia. }
  split; [|split].
  - intros k t [Hk Hs]%clearPending_lookup. split; [done|].
    apply stale_false in Hs. unfold staleThreshold in Hs.
    pose proof (NumberU64_range (block t)) as Hr.
    pose proof (uint64_le (NumberU64 (block t) + 7)). lia.
  - apply Hkeep.
  - intros k t Hk Hov. split; [|apply Hkeep; [done|done|lia]].
    destruct (newWorkLoop.clearPending _ m !! k) as [t'|] eqn:E; [|done].
    apply clearPending_lookup in E as [Hk' Hs]. simplify_eq.
    apply stale_false in Hs. unfold staleThreshold in Hs.
    rewrite uint64_small in Hs; [lia|].
    pose proof (NumberU64_range (block t)). lia.
Qed.

Lemma clearPending_stale_threshold_witness :
  let t := sample.taskAt 10 in
  let m : gmap Hash task := {[ 1 := t ]} in
  newWorkLoop.clearPending 17 m !! 1 = None /\
  newWorkLoop.clearPending 16 m !! 1 = Some t.
Proof.
  intros t m.
  apply (proj2 (proj2 (clearPending_stale_threshold 0 m)) 1 t);
    vm_compute; done.
Defined.

Lemma handle_trace sig now accepted st :
  let q := length (newWorkLoop.cells st) in
  (newWorkLoop.handle sig now accepted st).2 =
    newWorkLoop.ClearPending (newWorkLoop.signalNumber sig) ::
    match newWorkLoop.interrupt st with
    | Some p => [newWorkLoop.StoreInt32 p commitInterruptNewHead]
    | None => []
    end ++
    newWorkLoop.NewInt32 q ::
    (if accepted then [newWorkLoop.Send (newWorkReq.mk q false now)] else []).
Proof.
  unfold newWorkLoop.handle, newWorkLoop.commit. simpl.
  destruct (newWorkLoop.interrupt st), accepted; simpl;
    rewrite ?length_insert; reflexivity.
Qed.

Lemma handle_store sig now accepted st :
  let st' := (newWorkLoop.handle sig now accepted st).1 in
  let q := length (newWorkLoop.cells st) in
  newWorkLoop.interrupt st' = Some q /\
  newWorkLoop.timestamp st' = now /\
  newWorkLoop.cells st' =
    match newWorkLoop.interrupt st with
    | Some p => <[p := commitInterruptNewHead]> (newWorkLoop.cells st)
    | None => newWorkLoop.cells st
    end ++ [0] /\
  newWorkLoop.pendingTasks st' =
    newWorkLoop.clearPending (newWorkLoop.signalNumber sig) (newWorkLoop.pendingTasks st).
Proof.
  unfold newWorkLoop.handle, newWorkLoop.commit. simpl.
  destruct (newWorkLoop.interrupt st), accepted; simpl;
    rewrite ?length_insert; auto.
Qed.

Lemma handle_cells_length sig now accepted st :
  length (newWorkLoop.cells (newWorkLoop.handle sig now accepted st).1) =
  S (length (newWorkLoop.cells st)).
Proof.
  destruct (handle_store sig now accepted st) as (_ & _ & -> & _).
  rewrite length_app. simpl.
  destruct (newWorkLoop.interrupt st); rewrite ?length_insert; lia.
Qed.

Lemma handle_requests sig now accepted st :
  newWorkLoop.requests (newWorkLoop.handle sig now accepted st).2 =
  if accepted
  then [newWorkReq.mk (length (newWorkLoop.cells st)) false now]
  else [].
Proof.
  rewrite handle_trace. unfold newWorkLoop.requests.
  destruct (newWorkLoop.interrupt st), accepted; reflexivity.
Qed.

Lemma requests_app tr1 tr2 :
  newWorkLoop.requests (tr1 ++ tr2) =
  newWorkLoop.requests tr1 ++ newWorkLoop.requests tr2.
Proof. apply omap_app. Qed.

(** Every token a run hands out is a cell allocated during that run, and
    later tokens are later cells. *)
Lemma run_tokens inputs : forall st,
  let tokens := newWorkReq.interrupt <$>
                  newWorkLoop.requests (newWorkLoop.run inputs st).2 in
  Forall (fun p => (length (newWorkLoop.cells st) <= p)%nat) tokens /\
  NoDup tokens.
Proof.
  induction inputs as [|[[sig now] accepted] rest IH]; intros st; simpl.
  - split; constructor.
  - destruct (newWorkLoop.handle sig now accepted st) as [st1 ev1] eqn:E1.
    destruct (newWorkLoop.run rest st1) as [st2 ev2] eqn:E2. simpl.
    specialize (IH st1). rewrite E2 in IH. simpl in IH. destruct IH as [IHge IHnd].
    pose proof (handle_cells_length sig now accepted st) as Hlen.
    pose proof (handle_requests sig now accepted st) as Hreq.
    rewrite E1 in Hlen, Hreq. simpl in Hlen, Hreq.
    rewrite requests_app, fmap_app, Hreq.
    assert (Hge : Forall (fun p => (length (newWorkLoop.cells st) < p)%nat)
                    (newWorkReq.interrupt <$> newWorkLoop.requests ev2)).
    { eapply Forall_impl; [exact IHge|]. simpl. intros p Hp. lia. }
    destruct accepted; simpl.
    + split.
      * constructor; [lia|]. eapply Forall_impl; [exact Hge|]. simpl. lia.
      * constructor; [|done].
        intros Hin. rewrite Forall_forall in Hge. specialize (Hge _ Hin). lia.
    + split; [|done]. eapply Forall_impl; [exact Hge|]. simpl. lia.
Qed.

(** C6, as the specification words it, fails: when the worker is shut
    down while the scheduler waits to hand over the request, the signal
    is handled without any build request. *)
Lemma commit_exit_no_request :
  let st := newWorkLoop.init ∅ in
  let sig := newWorkLoop.chainHeadCh (block (sample.taskAt 5)) in
  length (newWorkLoop.requests (newWorkLoop.handle sig 0 false st).2) <> 1%nat.
Proof. vm_compute. lia. Qed.

(** C6 (amended): on every signal the scheduler first evicts the stale
    pending tasks, then stores the reason code in the previous token if
    there is one, then allocates a fresh token, and then hands over one
    build request with that token, unless the worker exits while it
    waits, in which case it emits none.  No two build requests of a run
    carry the same token. *)
Theorem newWorkLoop_signal_fresh_token :
  (forall sig now accepted st,
     let q := length (newWorkLoop.cells st) in
     let res := newWorkLoop.handle sig now accepted st in
     res.2 =
       newWorkLoop.ClearPending (newWorkLoop.signalNumber sig) ::
       match newWorkLoop.interrupt st with
       | Some p => [newWorkLoop.StoreInt32 p commitInterruptNewHead]
       | None => []
       end ++
       newWorkLoop.NewInt32 q ::
       (if accepted then [newWorkLoop.Send (newWorkReq.mk q false now)] else []) /\
     newWorkLoop.requests res.2 =
       (if accepted then [newWorkReq.mk q false now] else []) /\
     newWorkLoop.interrupt res.1 = Some q /\
     newWorkLoop.cells res.1 =
       match newWorkLoop.interrupt st with
       | Some p => <[p := commitInterruptNewHead]> (newWorkLoop.cells st)
       | None => newWorkLoop.cells st
       end ++ [0] /\
     newWorkLoop.pendingTasks res.1 =
       newWorkLoop.clearPending (newWorkLoop.signalNumber sig) (newWorkLoop.pendingTasks st)) /\
  (forall inputs st,
     NoDup (newWorkReq.interrupt <$>
              newWorkLoop.requests (newWorkLoop.run inputs st).2)).
Proof.
  split.
  - intros sig now accepted st q res.
    destruct (handle_store sig now accepted st) as (Hi & _ & Hc & Hp).
    split; [apply handle_trace|]. split; [apply handle_requests|]. done.
  - intros inputs st. apply run_tokens.
Qed.

(** ** taskLoop *)

Section TaskLoop.
Variable w : taskLoop.worker.

Local Abbreviation sealHashOf := (taskLoop.sealHashOf w).
Local Abbreviation hookTrace := (taskLoop.hookTrace w).

(** Whatever happens to a task, its seal hash is the dedup key afterwards. *)
Lemma step_prev t st : taskLoop.prev (taskLoop.step w t st).1 = sealHashOf t.
Proof.
  unfold taskLoop.step.
  case_decide as Hd; [done|].
  destruct (taskLoop.interrupt st) as [st1 ev1].
  destruct (taskLoop.skipSealHook w) as [hook|]; [destruct (hook t)|]; done.
Qed.

(** A task whose seal hash is the dedup key is dropped: the store is
    untouched and nothing but the new-task hook is called. *)
Lemma step_duplicate t st :
  sealHashOf t = taskLoop.prev st ->
  taskLoop.step w t st = (st, hookTrace t).
Proof.
  intros Hd. unfold taskLoop.step.
  case_decide; [done|contradiction].
Qed.

Lemma sealed_app tr1 tr2 :
  taskLoop.sealed (tr1 ++ tr2) = taskLoop.sealed tr1 ++ taskLoop.sealed tr2.
Proof. apply omap_app. Qed.

Lemma sealed_hookTrace t : taskLoop.sealed (hookTrace t) = [].
Proof. unfold taskLoop.hookTrace. by destruct (taskLoop.newTaskHook w). Qed.

Lemma sealed_interrupt st : taskLoop.sealed (taskLoop.interrupt st).2 = [].
Proof. unfold taskLoop.interrupt. by destruct (taskLoop.stopCh st). Qed.

(** A single task is delegated at most once, and exactly once when it is
    new and not vetoed. *)
Lemma step_sealed t st :
  taskLoop.sealed (taskLoop.step w t st).2 =
  if decide (sealHashOf t = taskLoop.prev st) then []
  else match taskLoop.skipSealHook w with
       | Some hook => if hook t then [] else [block t]
       | None => [block t]
       end.
Proof.
  unfold taskLoop.step.
  case_decide as Hd; [apply sealed_hookTrace|].
  pose proof (sealed_interrupt st) as Hi.
  destruct (taskLoop.interrupt st) as [st1 ev1]. simpl in Hi.
  destruct (taskLoop.skipSealHook w) as [hook|]; [destruct (hook t)|];
    simpl; rewrite !sealed_app, sealed_hookTrace, Hi; simpl;
    try destruct (Seal _ _ _); reflexivity.
Qed.

Lemma run_pair t1 t2 st :
  taskLoop.run w [t1; t2] st =
  let r1 := taskLoop.step w t1 st in
  let r2 := taskLoop.step w t2 r1.1 in
  (r2.1, r1.2 ++ r2.2).
Proof.
  simpl. destruct (taskLoop.step w t1 st) as [st1 ev1]. simpl.
  destruct (taskLoop.step w t2 st1) as [st2 ev2]. simpl.
  by rewrite app_nil_r.
Qed.

End TaskLoop.

(** C2, as the specification words it, fails: of three tasks with one
    seal hash received in a row, the second and the third are a pair of
    consecutive tasks with the same seal-identity, and the engine is not
    called for either of them. *)
Lemma taskLoop_pair_of_duplicates :
  let w := sample.plainWorker in
  let t := sample.taskAt 5 in
  let st := (taskLoop.step w t (taskLoop.init ∅)).1 in
  taskLoop.sealHashOf w t = taskLoop.sealHashOf w t /\
  taskLoop.seals (taskLoop.run w [t; t] st).2 <> 1%nat.
Proof. vm_compute. split; [done|lia]. Qed.

(** C2 (amended): of two tasks with the same seal-identity received one
    after the other, the second is dropped silently: the dispatcher's
    variables, the channels and the pending tasks are as the first task
    left them and only the new-task hook is called.  The pair is
    delegated to the engine at most once, and exactly once, with the
    first task's block, when the first task's seal-identity is not the
    one being sealed already and the skip hook does not veto it. *)
Theorem taskLoop_dedup (w : taskLoop.worker) (t1 t2 : task) (st : taskLoop.store) :
  taskLoop.sealHashOf w t1 = taskLoop.sealHashOf w t2 ->
  let r1 := taskLoop.step w t1 st in
  taskLoop.step w t2 r1.1 = (r1.1, taskLoop.hookTrace w t2) /\
  (taskLoop.seals (taskLoop.run w [t1; t2] st).2 <= 1)%nat /\
  (taskLoop.sealHashOf w t1 <> taskLoop.prev st ->
   match taskLoop.skipSealHook w with
   | Some hook => hook t1 = false
   | None => True
   end ->
   taskLoop.sealed (taskLoop.run w [t1; t2] st).2 = [block t1] /\
   taskLoop.seals (taskLoop.run w [t1; t2] st).2 = 1%nat).
Proof.
  intros Heq r1.
  assert (Hdup : taskLoop.step w t2 r1.1 = (r1.1, taskLoop.hookTrace w t2)).
  { apply step_duplicate. unfold r1. by rewrite step_prev. }
  assert (Hs : taskLoop.sealed (taskLoop.run w [t1; t2] st).2 =
               taskLoop.sealed r1.2).
  { rewrite run_pair. fold r1. simpl. rewrite Hdup. simpl.
    by rewrite sealed_app, sealed_hookTrace, app_nil_r. }
  split; [exact Hdup|]. unfold taskLoop.seals. rewrite Hs.
  unfold r1. rewrite step_sealed. split.
  - case_decide; [simpl; lia|].
    destruct (taskLoop.skipSealHook w) as [hook|]; [destruct (hook t1)|];
      simpl; lia.
  - intros Hnew Hveto. case_decide; [contradiction|].
    destruct (taskLoop.skipSealHook w) as [hook|]; [rewrite Hveto|]; done.
Qed.

Lemma taskLoop_dedup_witness :
  let w := sample.plainWorker in
  let t := sample.taskAt 5 in
  taskLoop.sealed (taskLoop.run w [t; t] (taskLoop.init ∅)).2 = [block t] /\
  taskLoop.seals (taskLoop.run w [t; t] (taskLoop.init ∅)).2 = 1%nat.
Proof.
  intros w t.
  apply (taskLoop_dedup w t t (taskLoop.init ∅) eq_refl); vm_compute; done.
Defined.

(** C10: when the skip hook is asked about a task and vetoes it, the
    dispatcher has by then closed the stop channel of the seal in flight
    and made the task's seal hash the dedup key; the vetoed task is not
    put among the pending tasks and not given to the engine, and the
    next task with the same seal hash is dropped as a duplicate. *)
Theorem taskLoop_veto_keeps_dedup_key
    (w : taskLoop.worker) (hook : task -> bool) (t : task) (st : taskLoop.store) :
  taskLoop.skipSealHook w = Some hook ->
  taskLoop.SkipSealHook t ∈ (taskLoop.step w t st).2 ->
  hook t = true ->
  let r := taskLoop.step w t st in
  r.2 = taskLoop.hookTrace w t ++
        match taskLoop.stopCh st with
        | Some c => [taskLoop.Close c]
        | None => []
        end ++ [taskLoop.SkipSealHook t] /\
  taskLoop.chans r.1 =
    match taskLoop.stopCh st with
    | Some c => <[c := true]> (taskLoop.chans st)
    | None => taskLoop.chans st
    end ++ [false] /\
  taskLoop.prev r.1 = taskLoop.sealHashOf w t /\
  taskLoop.pendingTasks r.1 = taskLoop.pendingTasks st /\
  taskLoop.seals r.2 = 0%nat /\
  forall t', taskLoop.sealHashOf w t' = taskLoop.sealHashOf w t ->
    taskLoop.step w t' r.1 = (r.1, taskLoop.hookTrace w t').
Proof.
  intros Hhook Hasked Hveto r.
  assert (Hnew : taskLoop.sealHashOf w t <> taskLoop.prev st).
  { intros Hd. rewrite (step_duplicate w t st Hd) in Hasked. simpl in Hasked.
    unfold taskLoop.hookTrace in Hasked.
    destruct (taskLoop.newTaskHook w);
      [inversion Hasked as [|? ? ? Hn]; inversion Hn | inversion Hasked]. }
  assert (Hr : r = (taskLoop.mkStore
                      (Some (length (taskLoop.chans (taskLoop.interrupt st).1)))
                      (taskLoop.sealHashOf w t)
                      (taskLoop.chans (taskLoop.interrupt st).1 ++ [false])
                      (taskLoop.pendingTasks (taskLoop.interrupt st).1),
                    taskLoop.hookTrace w t ++ (taskLoop.interrupt st).2 ++
                    [taskLoop.SkipSealHook t])).
  { unfold r, taskLoop.step. case_decide; [contradiction|].
    destruct (taskLoop.interrupt st) as [st1 ev1]. rewrite Hhook, Hveto. done. }
  split; [|split; [|split; [|split; [|split]]]].
  - rewrite Hr. simpl. unfold taskLoop.interrupt.
    by destruct (taskLoop.stopCh st).
  - rewrite Hr. simpl. unfold taskLoop.interrupt.
    by destruct (taskLoop.stopCh st).
  - apply step_prev.
  - rewrite Hr. simpl. unfold taskLoop.interrupt.
    by destruct (taskLoop.stopCh st).
  - unfold taskLoop.seals, r. rewrite step_sealed.
    case_decide; [done|]. by rewrite Hhook, Hveto.
  - intros t' Heq. apply step_duplicate. rewrite Heq. unfold r.
    by rewrite step_prev.
Qed.

Lemma taskLoop_veto_keeps_dedup_key_witness :
  let w := sample.vetoWorker in
  let t := sample.taskAt 5 in
  let st := (taskLoop.step sample.plainWorker (sample.taskAt 4) (taskLoop.init ∅)).1 in
  let r := taskLoop.step w t st in
  r.2 = [taskLoop.Close 0%nat; taskLoop.SkipSealHook t] /\
  taskLoop.chans r.1 = [true; false] /\
  taskLoop.prev r.1 = taskLoop.sealHashOf w t /\
  taskLoop.pendingTasks r.1 = taskLoop.pendingTasks st /\
  taskLoop.seals r.2 = 0%nat /\
  forall t', taskLoop.sealHashOf w t' = taskLoop.sealHashOf w t ->
    taskLoop.step w t' r.1 = (r.1, taskLoop.hookTrace w t').
Proof.
  intros w t st.
  apply (taskLoop_veto_keeps_dedup_key w (fun _ => true) t st eq_refl);
    [vm_compute; repeat constructor | reflexivity].
Defined.

(** ** resultLoop *)

Section ResultLoop.
Context {C : Type} {bc : BlockChain C}.
Variable engine : Engine.

(** The log loop runs through when the logs are allocated; it allocates
    nothing. *)
Lemma stampLogs_total hash ls : forall hl,
  Forall (fun l => (l < length hl)%nat) ls ->
  exists hl', resultLoop.stampLogs hash ls hl = Some hl' /\ length hl' = length hl.
Proof.
  induction ls as [|p rest IH]; intros hl Hall; simpl.
  - by exists hl.
  - apply Forall_cons in Hall as [Hp Hrest].
    destruct (lookup_lt_is_Some_2 hl p Hp) as [l ->].
    destruct (IH (<[p := resultLoop.stampLog hash l]> hl)) as (hl' & -> & Hlen).
    { by rewrite length_insert. }
    exists hl'. split; [done|]. by rewrite Hlen, length_insert.
Qed.

Lemma allocated_receiptsOk m t :
  resultLoop.allocated m t -> resultLoop.receiptsOk m (receipts t).
Proof.
  intros Ha. apply Forall_forall. intros p Hp.
  destruct (Ha p Hp) as (r & Hr & Hl). exists r. split; [done|].
  apply Forall_forall. intros l Hin. by apply lookup_lt_is_Some, Hl.
Qed.

(** The receipt loop runs through on allocated receipts. *)
Lemma stampReceipts_total hash number rs : forall i m out logs,
  resultLoop.receiptsOk m rs ->
  is_Some (resultLoop.stampReceipts hash number i rs m out logs).
Proof.
  induction rs as [|p rest IH]; intros i m out logs Hok; simpl; [done|].
  apply Forall_cons in Hok as [(r & Hr & Hlogs) Hrest]. rewrite Hr. simpl.
  destruct (stampLogs_total hash (Receipt.Logs r) (logsAt m) Hlogs)
    as (hl & -> & Hlen).
  apply IH. unfold resultLoop.receiptsOk in *. simpl. rewrite Hlen.
  eapply Forall_impl; [exact Hrest|]. simpl.
  intros p' (r' & Hr' & Hlogs').
  assert (Hlt : (p' < length (receiptsAt m))%nat) by by eapply lookup_lt_Some.
  rewrite lookup_app_l by by rewrite length_insert.
  destruct (decide (p = p')) as [->|Hne].
  - rewrite list_lookup_insert_eq by done. eexists. split; [done|].
    simpl. by simplify_eq.
  - rewrite list_lookup_insert_ne by done. by exists r'.
Qed.

Lemma stampLog_idemp hash l :
  resultLoop.stampLog hash (resultLoop.stampLog hash l) = resultLoop.stampLog hash l.
Proof.
  destruct l as [a tp d n tx ti bh ix]. unfold resultLoop.stampLog. simpl.
  destruct (decide (tx = zeroHash)) as [->|Hne]; simpl.
  - destruct (decide (hash = zeroHash)) as [->|Hne]; reflexivity.
  - destruct (decide (tx = zeroHash)); [contradiction|reflexivity].
Qed.

(** The log loop stamps the logs it is given and leaves the others. *)
Lemma stampLogs_lookup hash ls : forall hl hl',
  resultLoop.stampLogs hash ls hl = Some hl' ->
  forall l, hl' !! l =
    if decide (l ∈ ls) then resultLoop.stampLog hash <$> hl !! l else hl !! l.
Proof.
  induction ls as [|p rest IH]; intros hl hl' Hs l; simpl in Hs.
  - simplify_eq. case_decide as Hin; [by apply elem_of_nil in Hin|done].
  - destruct (hl !! p) as [x|] eqn:Hx; [|done].
    assert (Hp : (p < length hl)%nat) by by eapply lookup_lt_Some.
    rewrite (IH _ _ Hs l). destruct (decide (l = p)) as [->|Hne].
    + rewrite list_lookup_insert_eq, Hx by done. simpl.
      rewrite (decide_True (P := p ∈ p :: rest)) by by left.
      case_decide; simpl; by rewrite ?stampLog_idemp.
    + rewrite list_lookup_insert_ne by done.
      destruct (decide (l ∈ rest)) as [Hin|Hnin].
      * by rewrite (decide_True (P := l ∈ p :: rest)) by by right.
      * rewrite (decide_False (P := l ∈ p :: rest)); [done|].
        by intros [?|?]%elem_of_cons.
Qed.

Lemma locate_locate hash number i j r :
  Receipt.locate hash number i (Receipt.locate hash number j r) =
  Receipt.locate hash number i r.
Proof. reflexivity. Qed.

(** One iteration of the receipt loop on [p], seen from a receipt [p']
    that was allocated before: it is still there, relocated if it is
    [p] itself, with the same log pointers. *)
Lemma receipt_after_iteration hash number i (hr : list Receipt.t) p r p' r' :
  hr !! p = Some r -> hr !! p' = Some r' ->
  (<[p := Receipt.locate hash number i r]> hr ++ [Receipt.locate hash number i r]) !! p' =
    Some (if decide (p = p') then Receipt.locate hash number i r' else r').
Proof.
  intros Hr Hr'.
  assert (Hlt : (p' < length hr)%nat) by by eapply lookup_lt_Some.
  rewrite lookup_app_l by by rewrite length_insert.
  case_decide as Hd.
  - subst p'. rewrite list_lookup_insert_eq by done. by simplify_eq.
  - by rewrite list_lookup_insert_ne.
Qed.

Lemma receiptsOk_iteration hash number i m p r hl rest :
  receiptsAt m !! p = Some r ->
  length hl = length (logsAt m) ->
  resultLoop.receiptsOk m rest ->
  resultLoop.receiptsOk
    (mkHeap (<[p := Receipt.locate hash number i r]> (receiptsAt m) ++
             [Receipt.locate hash number i r]) hl) rest.
Proof.
  intros Hr Hlen Hok. unfold resultLoop.receiptsOk in *. simpl. rewrite Hlen.
  eapply Forall_impl; [exact Hok|]. simpl. intros p' (r' & Hr' & Hlogs').
  rewrite (receipt_after_iteration hash number i _ p r p' r' Hr Hr').
  eexists. split; [done|]. by case_decide.
Qed.

Lemma logsOf_cons m p rs :
  resultLoop.logsOf m (p :: rs) =
  match receiptsAt m !! p with
  | Some r => Receipt.Logs r
  | None => []
  end ++ resultLoop.logsOf m rs.
Proof. reflexivity. Qed.

Lemma logsOf_iteration hash number i m p r hl rest :
  receiptsAt m !! p = Some r ->
  resultLoop.receiptsOk m rest ->
  resultLoop.logsOf
    (mkHeap (<[p := Receipt.locate hash number i r]> (receiptsAt m) ++
             [Receipt.locate hash number i r]) hl) rest =
  resultLoop.logsOf m rest.
Proof.
  intros Hr Hok. induction rest as [|p' rest IH]; [done|].
  apply Forall_cons in Hok as [(r' & Hr' & _) Hrest].
  rewrite !logsOf_cons, (IH Hrest). f_equal. simpl.
  rewrite (receipt_after_iteration hash number i _ p r p' r' Hr Hr'), Hr'.
  by case_decide.
Qed.

(** The receipt loop, loop invariant and all: started at index [i] on a
    heap [m] where the receipts [rs] are allocated, it appends one fresh
    location per receipt to [out], and what it puts there is the
    located receipt, with the very log pointers of the original; it
    appends those pointers to [logs], and the log objects they point to
    are stamped in place, as are the task's own receipts. *)
Lemma stampReceipts_inv hash number rs : forall i m out logs m' out' logs',
  resultLoop.receiptsOk m rs ->
  resultLoop.stampReceipts hash number i rs m out logs = Some (m', out', logs') ->
  out' = out ++ seq (length (receiptsAt m)) (length rs) /\
  logs' = logs ++ resultLoop.logsOf m rs /\
  length (receiptsAt m') = (length (receiptsAt m) + length rs)%nat /\
  (forall k p r, rs !! k = Some p -> receiptsAt m !! p = Some r ->
     receiptsAt m' !! (length (receiptsAt m) + k)%nat =
       Some (Receipt.locate hash number (i + k) r)) /\
  (forall j, j ∉ rs -> (j < length (receiptsAt m))%nat ->
     receiptsAt m' !! j = receiptsAt m !! j) /\
  (forall p r, p ∈ rs -> receiptsAt m !! p = Some r ->
     exists j, receiptsAt m' !! p = Some (Receipt.locate hash number j r)) /\
  (forall l, logsAt m' !! l =
     if decide (l ∈ resultLoop.logsOf m rs)
     then resultLoop.stampLog hash <$> logsAt m !! l else logsAt m !! l).
Proof.
  induction rs as [|p rest IH]; intros i m out logs m' out' logs' Hok Hrun;
    simpl in Hrun.
  { simplify_eq. rewrite !app_nil_r.
    split; [done|]. split; [done|]. split; [simpl; lia|].
    split; [intros k p r Hk; by rewrite lookup_nil in Hk|].
    split; [done|].
    split; [intros p r Hin; by apply elem_of_nil in Hin|].
    intros l. case_decide as Hin; [by apply elem_of_nil in Hin|done]. }
  pose proof Hok as Hok0.
  apply Forall_cons in Hok as [(r & Hr & Hlogs) Hrest].
  rewrite Hr in Hrun. simpl in Hrun.
  destruct (stampLogs_total hash (Receipt.Logs r) (logsAt m) Hlogs)
    as (hl & Hhl & Hlen).
  rewrite Hhl in Hrun.
  set (r1 := Receipt.locate hash number i r) in *.
  set (m1 := mkHeap (<[p := r1]> (receiptsAt m) ++ [r1]) hl) in *.
  assert (Hlen1 : length (receiptsAt m1) = S (length (receiptsAt m))).
  { simpl. rewrite length_app, length_insert. simpl. lia. }
  assert (Hp : (p < length (receiptsAt m))%nat) by by eapply lookup_lt_Some.
  assert (Hbound : Forall (fun p' => (p' < length (receiptsAt m))%nat) rest).
  { eapply Forall_impl; [exact Hrest|]. simpl. intros p' (r' & Hr' & _).
    by eapply lookup_lt_Some. }
  destruct (IH (S i) m1 _ _ m' out' logs'
              (receiptsOk_iteration hash number i m p r hl rest Hr Hlen Hrest) Hrun)
    as (Hout & Hlg & Hlenm' & Hcopy & Hkeep & Hown & Hlogsm').
  assert (HlogsOf : resultLoop.logsOf m (p :: rest) =
                    Receipt.Logs r ++ resultLoop.logsOf m rest).
  { by rewrite logsOf_cons, Hr. }
  assert (Hlo : resultLoop.logsOf m1 rest = resultLoop.logsOf m rest)
    by by apply logsOf_iteration.
  rewrite Hlo in Hlg, Hlogsm'.
  assert (Hq : length (receiptsAt m) ∉ rest).
  { intros Hin. rewrite Forall_forall in Hbound. specialize (Hbound _ Hin). lia. }
  split; [|split; [|split; [|split; [|split; [|split]]]]].
  - rewrite Hout, Hlen1. simpl. rewrite length_insert. by rewrite <- app_assoc.
  - rewrite Hlg, HlogsOf. by rewrite <- app_assoc.
  - rewrite Hlenm', Hlen1. simpl. lia.
  - intros [|k] p' r' Hk Hr'; simpl in Hk.
    + simplify_eq. rewrite Nat.add_0_r, Nat.add_0_r.
      rewrite Hkeep by (rewrite ?Hlen1; done || lia). simpl.
      rewrite lookup_app_r by by rewrite length_insert.
      by rewrite length_insert, Nat.sub_diag.
    + pose proof (receipt_after_iteration hash number i _ p r p' r' Hr Hr') as H1.
      replace (length (receiptsAt m) + S k)%nat
        with (length (receiptsAt m1) + k)%nat by (rewrite Hlen1; lia).
      rewrite (Hcopy k p' _ Hk H1). f_equal.
      replace (i + S k)%nat with (S i + k)%nat by lia. by case_decide.
  - intros j Hj Hlt. apply not_elem_of_cons in Hj as [Hne Hj].
    rewrite Hkeep by (rewrite ?Hlen1; done || lia). simpl.
    rewrite lookup_app_l by by rewrite length_insert.
    by rewrite list_lookup_insert_ne.
  - intros p' r' Hin Hr'.
    pose proof (receipt_after_iteration hash number i _ p r p' r' Hr Hr') as H1.
    destruct (decide (p' ∈ rest)) as [Hrest'|Hnot].
    + destruct (Hown p' _ Hrest' H1) as [j Hj]. exists j. rewrite Hj.
      by case_decide.
    + apply elem_of_cons in Hin as [->|?]; [|done].
      exists i. rewrite Hkeep by (rewrite ?Hlen1; done || lia).
      unfold m1, r1. simpl. rewrite H1. by rewrite decide_True.
  - intros l. rewrite HlogsOf, Hlogsm'. change (logsAt m1) with hl.
    rewrite (stampLogs_lookup hash _ _ _ Hhl l).
    destruct (decide (l ∈ resultLoop.logsOf m rest)) as [Hin|Hnin].
    + rewrite (decide_True (P := l ∈ _ ++ _)) by (apply elem_of_app; by right).
      case_decide; [|done]. destruct (logsAt m !! l); simpl; [|done].
      by rewrite stampLog_idemp.
    + case_decide as Hl.
      * by rewrite (decide_True (P := l ∈ _ ++ _)) by (apply elem_of_app; by left).
      * rewrite (decide_False (P := l ∈ _ ++ _)); [done|].
        by intros [?|?]%elem_of_app.
Qed.

Lemma stampLog_fields hash l :
  Log.BlockHash (resultLoop.stampLog hash l) = hash /\
  Log.TxHash (resultLoop.stampLog hash l) =
    (if decide (Log.TxHash l = zeroHash) then hash else Log.TxHash l).
Proof.
  unfold resultLoop.stampLog. simpl. by case_decide.
Qed.

(** X11: what one result does to the receipts of its task.  The receipt
    handed to the write for transaction [i] is a new object that
    carries the block hash, the block number and the index [i]; its
    [Logs] are the log pointers of the task's receipt, not copies. *)
Lemma stampReceipts_copies hash number t m m' out logs :
  resultLoop.allocated m t ->
  resultLoop.stampReceipts hash number 0 (receipts t) m [] [] = Some (m', out, logs) ->
  length out = length (receipts t) /\
  forall i p r, receipts t !! i = Some p -> receiptsAt m !! p = Some r ->
    exists q c,
      out !! i = Some q /\ receiptsAt m !! q = None /\
      receiptsAt m' !! q = Some c /\
      Receipt.BlockHash c = hash /\ Receipt.BlockNumber c = number /\
      Receipt.TransactionIndex c = Z.of_nat i /\
      Receipt.Logs c = Receipt.Logs r.
Proof.
  intros Halloc Hrun.
  destruct (stampReceipts_inv hash number (receipts t) 0%nat m [] [] m' out logs
              (allocated_receiptsOk _ _ Halloc) Hrun)
    as (Hout & _ & _ & Hcopy & _).
  simpl in Hout. subst out. split; [by rewrite length_seq|].
  intros i p r Hi Hr.
  exists (length (receiptsAt m) + i)%nat, (Receipt.locate hash number i r).
  split; [apply lookup_seq; split; [done|by eapply lookup_lt_Some]|].
  split; [apply lookup_ge_None; lia|].
  split; [by apply (Hcopy i p r)|]. done.
Qed.

(** X12: what one result does to the logs: every log of the task's receipts
    gets the block hash; its transaction hash becomes the block hash if
    it was zero and stays what it was otherwise.  The log objects
    stamped are the task's own. *)
Lemma stampReceipts_logs hash number t m m' out logs :
  resultLoop.allocated m t ->
  resultLoop.stampReceipts hash number 0 (receipts t) m [] [] = Some (m', out, logs) ->
  logs = resultLoop.logsOf m (receipts t) /\
  forall l x, l ∈ logs -> logsAt m !! l = Some x ->
    exists y, logsAt m' !! l = Some y /\
      Log.BlockHash y = hash /\
      Log.TxHash y = (if decide (Log.TxHash x = zeroHash) then hash else Log.TxHash x).
Proof.
  intros Halloc Hrun.
  destruct (stampReceipts_inv hash number (receipts t) 0%nat m [] [] m' out logs
              (allocated_receiptsOk _ _ Halloc) Hrun)
    as (_ & Hlogs & _ & _ & _ & _ & Hl).
  simpl in Hlogs. subst logs. split; [done|]. intros l x Hin Hx.
  exists (resultLoop.stampLog hash x). rewrite Hl, decide_True, Hx by done.
  split; [done|]. apply stampLog_fields.
Qed.

(** The iteration on a block that is new to the chain and resolves to a
    pending task, once the receipt loop has run through. *)
Lemma step_resolved b now st t m rs ls :
  HasBlock (resultLoop.chain st) (hash b) (NumberU64 b) = false ->
  resultLoop.pendingTasks st !! SealHash engine (header b) = Some t ->
  resultLoop.stampReceipts (hash b) (Number (header b)) 0 (receipts t)
    (resultLoop.mem st) [] [] = Some (m, rs, ls) ->
  resultLoop.step engine (Some b) now st =
    let res := WriteBlockWithState (resultLoop.chain st) b rs ls (state t) true m in
    let st1 := resultLoop.mkStore res.1 (resultLoop.pendingTasks st) m in
    let w := resultLoop.Write b rs ls (state t) true in
    Some (st1,
          match res.2 with
          | Some _ => [w; resultLoop.LogError "Failed writing block to chain"]
          | None => [w; resultLoop.GaugeUpdate (resultLoop.finalizationTime now b);
                     resultLoop.LogInfo "Successfully sealed new block";
                     resultLoop.Post b]
          end).
Proof.
  intros Hhas Htask Hstamp. unfold resultLoop.step.
  rewrite Hhas, Htask, Hstamp.
  destruct (WriteBlockWithState _ _ _ _ _ _ _) as [c' [msg|]]; done.
Qed.

Lemma run_cons result now rest st :
  resultLoop.run engine ((result, now) :: rest) st =
  match resultLoop.step engine result now st with
  | None => None
  | Some (st1, ev1) =>
      match resultLoop.run engine rest st1 with
      | None => None
      | Some (st2, ev2) => Some (st2, ev1 ++ ev2)
      end
  end.
Proof. reflexivity. Qed.

End ResultLoop.

(** C5: a nil result, and a sealed block the chain store already has
    under its hash and number, are skipped: no write, no log, no metric,
    no broadcast, the stores are as they were, and the loop goes on with
    the results that follow. *)
Theorem resultLoop_skips_nil_and_known
    {C : Type} {bc : BlockChain C} (engine : Engine)
    (result : option Block) (now : Z) (st : resultLoop.store C)
    (rest : list (option Block * Z)) :
  result = None \/
  (exists b, result = Some b /\
     HasBlock (resultLoop.chain st) (hash b) (NumberU64 b) = true) ->
  resultLoop.step engine result now st = Some (st, []) /\
  resultLoop.run engine ((result, now) :: rest) st = resultLoop.run engine rest st.
Proof.
  intros Hskip.
  assert (Hstep : resultLoop.step engine result now st = Some (st, [])).
  { destruct Hskip as [->|(b & -> & Hhas)]; [done|].
    unfold resultLoop.step. by rewrite Hhas. }
  split; [done|]. rewrite run_cons, Hstep.
  by destruct (resultLoop.run engine rest st) as [[st2 ev2]|].
Qed.

Lemma resultLoop_skips_nil_and_known_witness :
  let st := resultLoop.mkStore [(101, 5)] ∅ sample.heap0 in
  resultLoop.step (bc := sample.memChain) sample.engine (Some sample.sealedA) 0 st
    = Some (st, []) /\
  resultLoop.run (bc := sample.memChain) sample.engine [(Some sample.sealedA, 0)] st
    = resultLoop.run (bc := sample.memChain) sample.engine [] st.
Proof.
  intros st.
  apply (resultLoop_skips_nil_and_known (bc := sample.memChain)).
  right. exists sample.sealedA. split; [reflexivity | vm_compute; reflexivity].
Defined.

(** C4, as the specification words it, fails: a sealed block without a
    pending task that the chain store already has is skipped as a
    duplicate before the lookup, and no error is logged. *)
Lemma resultLoop_unknown_but_known_to_chain :
  let st := resultLoop.mkStore [(101, 5)] ∅ sample.heap0 in
  resultLoop.pendingTasks st !! SealHash sample.engine (header sample.sealedA) = None /\
  resultLoop.step (bc := sample.memChain) sample.engine (Some sample.sealedA) 0 st
    = Some (st, []).
Proof. vm_compute. done. Qed.

(** C4 (amended): a sealed block whose seal-identity has no pending task
    causes no chain-store write, no metric update and no broadcast, and
    leaves the pending tasks and the chain store as they were; an error
    is logged for it unless the chain store already has the block, which
    is then skipped as a duplicate without a log. *)
Theorem resultLoop_unknown_result
    {C : Type} {bc : BlockChain C} (engine : Engine)
    (b : Block) (now : Z) (st : resultLoop.store C) :
  resultLoop.pendingTasks st !! SealHash engine (header b) = None ->
  resultLoop.step engine (Some b) now st =
    Some (st,
          if HasBlock (resultLoop.chain st) (hash b) (NumberU64 b) then []
          else [resultLoop.LogError "Block found but no relative pending task"]).
Proof.
  intros Hnone. unfold resultLoop.step.
  destruct (HasBlock _ _ _); [done|]. by rewrite Hnone.
Qed.

Lemma resultLoop_unknown_result_witness :
  let st := resultLoop.mkStore [] ∅ sample.heap0 in
  resultLoop.step (bc := sample.memChain) sample.engine (Some sample.sealedA) 0 st
    = Some (st, [resultLoop.LogError "Block found but no relative pending task"]).
Proof.
  intros st.
  apply (resultLoop_unknown_result (bc := sample.memChain) sample.engine
           sample.sealedA 0 st).
  vm_compute. reflexivity.
Defined.

(** C7: when the chain-store write of a sealed block fails, the
    iteration ends after the one write with an error log: the trace has
    no second write, no metric update and no broadcast, and the loop
    goes on with the results that follow. *)
Theorem resultLoop_write_failure
    {C : Type} {bc : BlockChain C} (engine : Engine)
    (b : Block) (now : Z) (st : resultLoop.store C) (t : task)
    (rest : list (option Block * Z)) :
  HasBlock (resultLoop.chain st) (hash b) (NumberU64 b) = false ->
  resultLoop.pendingTasks st !! SealHash engine (header b) = Some t ->
  resultLoop.allocated (resultLoop.mem st) t ->
  exists m rs ls,
    resultLoop.stampReceipts (hash b) (Number (header b)) 0 (receipts t)
      (resultLoop.mem st) [] [] = Some (m, rs, ls) /\
    forall c' msg,
      WriteBlockWithState (resultLoop.chain st) b rs ls (state t) true m
        = (c', Some msg) ->
      let st1 := resultLoop.mkStore c' (resultLoop.pendingTasks st) m in
      let tr := [resultLoop.Write b rs ls (state t) true;
                 resultLoop.LogError "Failed writing block to chain"] in
      resultLoop.step engine (Some b) now st = Some (st1, tr) /\
      resultLoop.run engine ((Some b, now) :: rest) st =
        match resultLoop.run engine rest st1 with
        | Some (st2, ev2) => Some (st2, tr ++ ev2)
        | None => None
        end.
Proof.
  intros Hhas Htask Halloc.
  destruct (stampReceipts_total (hash b) (Number (header b)) (receipts t) 0%nat
              (resultLoop.mem st) [] [] (allocated_receiptsOk _ _ Halloc))
    as [[[m rs] ls] Hstamp].
  exists m, rs, ls. split; [done|]. intros c' msg Hw st1 tr.
  assert (Hstep : resultLoop.step engine (Some b) now st = Some (st1, tr)).
  { rewrite (step_resolved engine b now st t m rs ls Hhas Htask Hstamp).
    simpl. by rewrite Hw. }
  split; [done|]. by rewrite run_cons, Hstep.
Qed.

Lemma sample_task5_allocated :
  resultLoop.allocated (resultLoop.mem sample.store0) sample.task5.
Proof.
  intros p Hp. apply list_elem_of_singleton in Hp as ->.
  exists sample.receipt0. split; [reflexivity|].
  intros l Hl. apply lookup_lt_is_Some. simpl.
  apply elem_of_cons in Hl as [->|Hl]; [lia|].
  apply list_elem_of_singleton in Hl as ->. lia.
Defined.

Lemma resultLoop_write_failure_witness :
  snd <$> resultLoop.step (bc := sample.fullChain) sample.engine
            (Some sample.sealedA) 5000000000 sample.store0 =
  Some [resultLoop.Write sample.sealedA [1%nat] [0%nat; 1%nat] 0%nat true;
        resultLoop.LogError "Failed writing block to chain"].
Proof.
  destruct (resultLoop_write_failure (bc := sample.fullChain) sample.engine
              sample.sealedA 5000000000 sample.store0 sample.task5 []
              eq_refl eq_refl sample_task5_allocated)
    as (m & rs & ls & Hs & Hf).
  vm_compute in Hs. injection Hs as <- <- <-.
  destruct (Hf [] "write failed" eq_refl) as [Hstep _].
  rewrite Hstep. reflexivity.
Defined.

Lemma int64_small z : - 2 ^ 63 <= z < 2 ^ 63 -> int64 z = z.
Proof. intros H. unfold int64. rewrite Z.mod_small; lia. Qed.

(** Away from overflow the gauge value is the wall clock minus the
    block's time stamp in nanoseconds. *)
Lemma finalizationTime_small now b :
  0 <= Time (header b) ->
  Time (header b) * 1000000000 < 2 ^ 63 ->
  - 2 ^ 63 <= now - Time (header b) * 1000000000 < 2 ^ 63 ->
  resultLoop.finalizationTime now b = now - Time (header b) * 1000000000.
Proof.
  intros H0 H1 H2. unfold resultLoop.finalizationTime, BlockTime.
  rewrite uint64_small by lia.
  rewrite (int64_small (Time (header b))) by lia.
  rewrite (int64_small (Time (header b) * 1000000000)) by lia.
  by apply int64_small.
Qed.

(** C8, as the specification words it, fails: the metric is not the time
    since the task was created.  For a task created at 4 s whose block
    carries the time stamp 2 s and is written at 5 s, the gauge gets 3 s,
    not 1 s. *)
Lemma resultLoop_gauge_not_since_creation :
  let now := 5000000000 in
  resultLoop.pendingTasks sample.store0 !! SealHash sample.engine (header sample.sealedA)
    = Some sample.task5 /\
  snd <$> resultLoop.step (bc := sample.memChain) sample.engine
            (Some sample.sealedA) now sample.store0 =
    Some [resultLoop.Write sample.sealedA [1%nat] [0%nat; 1%nat] 0%nat true;
          resultLoop.GaugeUpdate 3000000000;
          resultLoop.LogInfo "Successfully sealed new block";
          resultLoop.Post sample.sealedA] /\
  3000000000 <> now - createdAt sample.task5.
Proof. vm_compute. split; [done|]. split; [done|]. discriminate. Qed.

(** C8 (amended): on every successful commit of a sealed block the
    committer, after the one chain-store write, updates the
    finalization-time gauge with the wall clock in nanoseconds minus the
    sealed block's own time stamp (seconds, scaled to nanoseconds, in
    [int64] arithmetic), whatever the task's creation time is, and then
    posts a new-mined-block event that carries the committed block. *)
Theorem resultLoop_commit_success
    {C : Type} {bc : BlockChain C} (engine : Engine)
    (b : Block) (now : Z) (st : resultLoop.store C) (t : task) :
  HasBlock (resultLoop.chain st) (hash b) (NumberU64 b) = false ->
  resultLoop.pendingTasks st !! SealHash engine (header b) = Some t ->
  resultLoop.allocated (resultLoop.mem st) t ->
  exists m rs ls,
    resultLoop.stampReceipts (hash b) (Number (header b)) 0 (receipts t)
      (resultLoop.mem st) [] [] = Some (m, rs, ls) /\
    (forall c',
      WriteBlockWithState (resultLoop.chain st) b rs ls (state t) true m
        = (c', None) ->
      resultLoop.step engine (Some b) now st =
        Some (resultLoop.mkStore c' (resultLoop.pendingTasks st) m,
              [resultLoop.Write b rs ls (state t) true;
               resultLoop.GaugeUpdate (resultLoop.finalizationTime now b);
               resultLoop.LogInfo "Successfully sealed new block";
               resultLoop.Post b])) /\
    resultLoop.finalizationTime now b =
      int64 (now - int64 (int64 (uint64 (Time (header b))) * 1000000000)) /\
    (0 <= Time (header b) ->
     Time (header b) * 1000000000 < 2 ^ 63 ->
     - 2 ^ 63 <= now - Time (header b) * 1000000000 < 2 ^ 63 ->
     resultLoop.finalizationTime now b = now - Time (header b) * 1000000000).
Proof.
  intros Hhas Htask Halloc.
  destruct (stampReceipts_total (hash b) (Number (header b)) (receipts t) 0%nat
              (resultLoop.mem st) [] [] (allocated_receiptsOk _ _ Halloc))
    as [[[m rs] ls] Hstamp].
  exists m, rs, ls. split; [done|]. split; [|split].
  - intros c' Hw.
    rewrite (step_resolved engine b now st t m rs ls Hhas Htask Hstamp).
    simpl. by rewrite Hw.
  - reflexivity.
  - apply finalizationTime_small.
Qed.

Lemma resultLoop_commit_success_witness :
  snd <$> resultLoop.step (bc := sample.memChain) sample.engine
            (Some sample.sealedA) 5000000000 sample.store0 =
  Some [resultLoop.Write sample.sealedA [1%nat] [0%nat; 1%nat] 0%nat true;
        resultLoop.GaugeUpdate (5000000000 - 2 * 1000000000);
        resultLoop.LogInfo "Successfully sealed new block";
        resultLoop.Post sample.sealedA].
Proof.
  destruct (resultLoop_commit_success (bc := sample.memChain) sample.engine
              sample.sealedA 5000000000 sample.store0 sample.task5
              eq_refl eq_refl sample_task5_allocated)
    as (m & rs & ls & Hs & Hstep & _ & Hft).
  vm_compute in Hs. injection Hs as <- <- <-.
  rewrite (Hstep _ eq_refl). simpl. rewrite Hft by (simpl; lia).
  reflexivity.
Defined.

(** C1 is broken by the code.  Two sealed blocks with one seal hash and
    different block hashes are committed from the same pending task.
    The receipt struct is copied for each, but the copy keeps the
    pointers to the task's log objects: both writes are handed the same
    logs, and stamping them for the second block overwrites the block
    hash in the logs of the receipt already written for the first.  A
    block-finalization log, whose transaction hash was zero in the task,
    carries the first block's hash as transaction hash in the second
    commit. *)
Theorem resultLoop_copies_share_logs :
  exists st tr,
    resultLoop.run (bc := sample.memChain) sample.engine
      [(Some sample.sealedA, 5000000000); (Some sample.sealedB, 6000000000)]
      sample.store0 = Some (st, tr) /\
    SealHash sample.engine (header sample.sealedA) =
      SealHash sample.engine (header sample.sealedB) /\
    hash sample.sealedA = 101 /\ hash sample.sealedB = 102 /\
    resultLoop.writes tr =
      [(sample.sealedA, [1%nat], [0%nat; 1%nat]);
       (sample.sealedB, [2%nat], [0%nat; 1%nat])] /\
    Receipt.Logs <$> receiptsAt (resultLoop.mem st) !! 1%nat = Some [0%nat; 1%nat] /\
    Receipt.Logs <$> receiptsAt (resultLoop.mem st) !! 2%nat = Some [0%nat; 1%nat] /\
    Receipt.BlockHash <$> receiptsAt (resultLoop.mem st) !! 1%nat = Some 101 /\
    Log.BlockHash <$> logsAt (resultLoop.mem st) !! 0%nat = Some 102 /\
    Log.TxHash <$> logsAt (sample.heap0) !! 0%nat = Some zeroHash /\
    Log.TxHash <$> logsAt (resultLoop.mem st) !! 0%nat = Some 101.
Proof.
  destruct (resultLoop.run (bc := sample.memChain) sample.engine
              [(Some sample.sealedA, 5000000000); (Some sample.sealedB, 6000000000)]
              sample.store0) as [[st tr]|] eqn:E; [|by vm_compute in E].
  exists st, tr. split; [done|].
  vm_compute in E. injection E as <- <-. vm_compute. done.
Qed.

(** ** The pending snapshot *)

Lemma SetState_length p k v h : length (snapshot.SetState p k v h) = length h.
Proof.
  unfold snapshot.SetState. destruct (h !! p); [apply length_insert|done].
Qed.

Lemma SetState_other p q k v (h : list snapshot.StateDB) :
  p <> q -> snapshot.SetState p k v h !! q = h !! q.
Proof.
  intros Hne. unfold snapshot.SetState.
  destruct (h !! p); [by apply list_lookup_insert_ne|done].
Qed.

Lemma pending_some w (h : list snapshot.StateDB) p s :
  snapshot.snapshotState w = Some p -> h !! p = Some s ->
  snapshot.pending w h = Some (snapshot.snapshotBlock w, Some (length h), h ++ [s]).
Proof.
  intros Hp Hs. unfold snapshot.pending, snapshot.Copy. by rewrite Hp, Hs.
Qed.

(** C9: when there is a snapshot state, [pending] returns the snapshot
    block together with a state object of its own: a new object, not the
    stored one, holding the stored contents.  A write to the returned
    object leaves the stored snapshot state as it was, and a later call
    returns another object again. *)
Theorem pending_returns_independent_copy
    (w : snapshot.worker) (h : list snapshot.StateDB) (p : loc) :
  snapshot.snapshotState w = Some p ->
  is_Some (h !! p) ->
  exists q h1,
    snapshot.pending w h = Some (snapshot.snapshotBlock w, Some q, h1) /\
    q <> p /\
    h !! q = None /\
    h1 !! q = h !! p /\
    h1 !! p = h !! p /\
    (forall k v, snapshot.SetState q k v h1 !! p = h !! p) /\
    (forall h2, (length h1 <= length h2)%nat -> is_Some (h2 !! p) ->
       exists q' h3,
         snapshot.pending w h2 = Some (snapshot.snapshotBlock w, Some q', h3) /\
         q' <> q /\ q' <> p).
Proof.
  intros Hp [s Hs].
  assert (Hlt : (p < length h)%nat) by by eapply lookup_lt_Some.
  exists (length h), (h ++ [s]).
  split; [by apply (pending_some w h p s)|].
  split; [lia|].
  split; [apply lookup_ge_None; lia|].
  split; [by rewrite Hs, lookup_app_r, Nat.sub_diag|].
  assert (Hkeep : (h ++ [s]) !! p = h !! p) by by apply lookup_app_l.
  split; [done|].
  split; [intros k v; rewrite SetState_other by lia; done|].
  intros h2 Hlen [s2 Hs2]. rewrite length_app in Hlen. simpl in Hlen.
  exists (length h2), (h2 ++ [s2]).
  split; [by apply (pending_some w h2 p s2)|]. lia.
Qed.

Lemma pending_returns_independent_copy_witness :
  let w := snapshot.mkWorker (Some sample.sealedA) (Some 0%nat) in
  let h := [snapshot.mkStateDB {[ 1 := 10 ]}] in
  snapshot.pending w h =
    Some (Some sample.sealedA, Some 1%nat,
          [snapshot.mkStateDB {[ 1 := 10 ]}; snapshot.mkStateDB {[ 1 := 10 ]}]) /\
  snapshot.SetState 1%nat 1 99 (h ++ h) !! 0%nat = h !! 0%nat.
Proof.
  intros w h.
  destruct (pending_returns_independent_copy w h 0%nat eq_refl
              (ex_intro _ _ eq_refl))
    as (q & h1 & Hpend & _ & _ & _ & _ & Hset & _).
  split.
  - rewrite Hpend. vm_compute in Hpend. injection Hpend as <- <-. reflexivity.
  - vm_compute in Hpend. injection Hpend as <- <-. apply (Hset 1 99).
Defined.

(** * Further properties of the code *)

(** ** newWorkLoop *)

Lemma stale_mono a b t :
  a <= b -> newWorkLoop.stale a t = true -> newWorkLoop.stale b t = true.
Proof.
  unfold newWorkLoop.stale. rewrite !bool_decide_eq_true. lia.
Qed.

(** X1: evictions compose.  Clearing at one height and then at another
    leaves what clearing once at the higher of the two leaves; clearing
    again at a height not above an earlier one removes nothing more. *)
Theorem clearPending_compose (a b : Z) (m : gmap Hash task) :
  newWorkLoop.clearPending a (newWorkLoop.clearPending b m) =
  newWorkLoop.clearPending (Z.max a b) m.
Proof.
  apply map_eq. intros k. apply option_eq. intros t.
  rewrite !clearPending_lookup, !stale_false. split.
  - intros [[Hk Hb] Ha]. split; [done|]. lia.
  - intros [Hk Hmax]. split; [split; [done|lia]|lia].
Qed.

Lemma clearPending_negative n (m : gmap Hash task) :
  n < 0 -> newWorkLoop.clearPending n m = m.
Proof.
  intros Hn. apply map_eq. intros k. apply option_eq. intros t.
  rewrite clearPending_lookup, stale_false. split; [by intros [? _]|].
  intros Hk. split; [done|].
  pose proof (uint64_range (NumberU64 (block t) + staleThreshold)). lia.
Qed.

Lemma handle_pendingTasks sig now accepted st :
  newWorkLoop.pendingTasks (newWorkLoop.handle sig now accepted st).1 =
  newWorkLoop.clearPending (newWorkLoop.signalNumber sig) (newWorkLoop.pendingTasks st).
Proof. by destruct (handle_store sig now accepted st) as (_ & _ & _ & ->). Qed.

Lemma run_step_fst sig now accepted rest st :
  (newWorkLoop.run ((sig, now, accepted) :: rest) st).1 =
  (newWorkLoop.run rest (newWorkLoop.handle sig now accepted st).1).1.
Proof.
  cbn [newWorkLoop.run].
  destruct (newWorkLoop.handle sig now accepted st) as [st1 ev1]. cbn [fst snd].
  by destruct (newWorkLoop.run rest st1) as [st2 ev2].
Qed.

Lemma run_step_snd sig now accepted rest st :
  (newWorkLoop.run ((sig, now, accepted) :: rest) st).2 =
  (newWorkLoop.handle sig now accepted st).2 ++
  (newWorkLoop.run rest (newWorkLoop.handle sig now accepted st).1).2.
Proof.
  cbn [newWorkLoop.run].
  destruct (newWorkLoop.handle sig now accepted st) as [st1 ev1]. cbn [fst snd].
  by destruct (newWorkLoop.run rest st1) as [st2 ev2].
Qed.

(** X2: the scheduler only ever evicts.  After any sequence of signals
    the pending tasks are the ones it started with, cleared once at the
    highest height it has seen; in particular it adds no entry and
    changes none. *)
Theorem newWorkLoop_run_pendingTasks inputs : forall st,
  newWorkLoop.pendingTasks (newWorkLoop.run inputs st).1 =
  newWorkLoop.clearPending (newWorkLoop.highest inputs) (newWorkLoop.pendingTasks st).
Proof.
  induction inputs as [|[[sig now] accepted] rest IH]; intros st.
  - simpl. by rewrite clearPending_negative.
  - rewrite run_step_fst, IH, handle_pendingTasks, clearPending_compose.
    f_equal. simpl. lia.
Qed.

Lemma handle_tokensOk sig now accepted st :
  newWorkLoop.tokensOk st ->
  newWorkLoop.tokensOk (newWorkLoop.handle sig now accepted st).1.
Proof.
  unfold newWorkLoop.tokensOk. intros Hok.
  destruct (handle_store sig now accepted st) as (-> & _ & -> & _).
  destruct (newWorkLoop.interrupt st) as [p|]; rewrite Hok; [|done].
  rewrite length_app, length_replicate. simpl.
  rewrite Nat.add_1_r, replicate_S_end. f_equal.
  rewrite insert_app_r_alt by by rewrite length_replicate.
  by rewrite length_replicate, Nat.sub_diag.
Qed.

Lemma run_tokensOk inputs : forall st,
  newWorkLoop.tokensOk st -> newWorkLoop.tokensOk (newWorkLoop.run inputs st).1.
Proof.
  induction inputs as [|[[sig now] accepted] rest IH]; intros st Hok; [done|].
  rewrite run_step_fst. by apply IH, handle_tokensOk.
Qed.

Lemma run_cells_length inputs : forall st,
  length (newWorkLoop.cells (newWorkLoop.run inputs st).1) =
  (length (newWorkLoop.cells st) + length inputs)%nat.
Proof.
  induction inputs as [|[[sig now] accepted] rest IH]; intros st.
  - simpl. lia.
  - rewrite run_step_fst, IH, handle_cells_length. simpl. lia.
Qed.

(** X3: only the latest token is live.  After [n >= 1] signals handled
    from the start of the loop, [n] tokens have been allocated; the
    scheduler's [interrupt] is the last one and reads
    [commitInterruptNone], and every earlier token reads
    [commitInterruptNewHead] ([commitInterruptResubmit] is never
    stored). *)
Theorem newWorkLoop_tokens_superseded
    (inputs : list (newWorkLoop.signal * Z * bool)) (m : gmap Hash task) :
  inputs <> [] ->
  let st := (newWorkLoop.run inputs (newWorkLoop.init m)).1 in
  let n := length inputs in
  newWorkLoop.interrupt st = Some (n - 1)%nat /\
  newWorkLoop.cells st =
    replicate (n - 1) commitInterruptNewHead ++ [commitInterruptNone].
Proof.
  intros Hne st n.
  pose proof (run_tokensOk inputs (newWorkLoop.init m) eq_refl) as Hok.
  pose proof (run_cells_length inputs (newWorkLoop.init m)) as Hlen.
  fold st in Hok, Hlen. unfold newWorkLoop.tokensOk in Hok. simpl in Hlen.
  assert (Hn : (0 < n)%nat) by (unfold n; destruct inputs; [done|simpl; lia]).
  fold n in Hlen.
  destruct (newWorkLoop.interrupt st) as [p|].
  - rewrite Hok in Hlen. rewrite length_app, length_replicate in Hlen.
    simpl in Hlen. assert (p = (n - 1)%nat) as -> by lia. done.
  - rewrite Hok in Hlen. simpl in Hlen. lia.
Qed.

Lemma newWorkLoop_tokens_superseded_witness :
  let b := block (sample.taskAt 5) in
  let inputs := [(newWorkLoop.startCh b, 10, true);
                 (newWorkLoop.chainHeadCh b, 11, false);
                 (newWorkLoop.chainHeadCh b, 12, true)] in
  let st := (newWorkLoop.run inputs (newWorkLoop.init ∅)).1 in
  newWorkLoop.interrupt st = Some 2%nat /\
  newWorkLoop.cells st = [1; 1; 0].
Proof.
  intros b inputs st.
  apply (newWorkLoop_tokens_superseded inputs ∅). discriminate.
Defined.

(** X4: what the requests carry.  The build requests of a run are those
    of the signals whose hand-over was accepted, in the order of the
    signals; each carries the time stamp read for its signal and never
    asks to suppress empty blocks. *)
Theorem newWorkLoop_requests_content inputs : forall st,
  let reqs := newWorkLoop.requests (newWorkLoop.run inputs st).2 in
  newWorkReq.timestamp <$> reqs =
    (fun x => x.1.2) <$> filter (fun x => x.2 = true) inputs /\
  Forall (fun r => newWorkReq.noempty r = false) reqs.
Proof.
  induction inputs as [|[[sig now] accepted] rest IH]; intros st.
  - split; [done|constructor].
  - cbv zeta. rewrite run_step_snd, requests_app, handle_requests.
    destruct (IH (newWorkLoop.handle sig now accepted st).1) as [Hts Hne].
    rewrite fmap_app, Hts. destruct accepted.
    + rewrite filter_cons_True by done. split; [done|].
      apply Forall_app. split; [by repeat constructor|done].
    + rewrite filter_cons_False by done. split; [done|]. done.
Qed.

(** ** taskLoop *)

Section TaskLoopMore.
Variable w : taskLoop.worker.
Local Abbreviation sealHashOf := (taskLoop.sealHashOf w).

Lemma taskLoop_run_fst t rest st :
  (taskLoop.run w (t :: rest) st).1 =
  (taskLoop.run w rest (taskLoop.step w t st).1).1.
Proof.
  cbn [taskLoop.run]. destruct (taskLoop.step w t st) as [st1 ev1]. cbn [fst snd].
  by destruct (taskLoop.run w rest st1) as [st2 ev2].
Qed.

Lemma taskLoop_run_snd t rest st :
  (taskLoop.run w (t :: rest) st).2 =
  (taskLoop.step w t st).2 ++ (taskLoop.run w rest (taskLoop.step w t st).1).2.
Proof.
  cbn [taskLoop.run]. destruct (taskLoop.step w t st) as [st1 ev1]. cbn [fst snd].
  by destruct (taskLoop.run w rest st1) as [st2 ev2].
Qed.

(** The store after a task that is not a duplicate. *)
Lemma step_new_store t st :
  sealHashOf t <> taskLoop.prev st ->
  let st1 := (taskLoop.interrupt st).1 in
  let c := length (taskLoop.chans st1) in
  exists skip,
    (taskLoop.step w t st).1 =
      taskLoop.mkStore (Some c) (sealHashOf t) (taskLoop.chans st1 ++ [false])
        (if skip : bool then taskLoop.pendingTasks st
         else <[sealHashOf t := t]> (taskLoop.pendingTasks st)) /\
    (taskLoop.passes w t -> skip = false).
Proof.
  intros Hnew st1 c. unfold taskLoop.step, taskLoop.passes.
  case_decide; [contradiction|].
  assert (Hp : taskLoop.pendingTasks st1 = taskLoop.pendingTasks st).
  { unfold st1, taskLoop.interrupt. by destruct (taskLoop.stopCh st). }
  unfold c, st1 in *. destruct (taskLoop.interrupt st) as [st1' ev1]. simpl in *.
  destruct (taskLoop.skipSealHook w) as [hook|].
  - exists (hook t). destruct (hook t); simpl; by rewrite Hp.
  - exists false. simpl. by rewrite Hp.
Qed.

Lemma step_new_pendingTasks t st :
  sealHashOf t <> taskLoop.prev st -> taskLoop.passes w t ->
  taskLoop.pendingTasks (taskLoop.step w t st).1 =
  <[sealHashOf t := t]> (taskLoop.pendingTasks st).
Proof.
  intros Hnew Hpass. destruct (step_new_store t st Hnew) as (skip & -> & Hs).
  by rewrite (Hs Hpass).
Qed.

Lemma interrupt_closes st :
  taskLoop.oneInFlight st ->
  taskLoop.stopCh (taskLoop.interrupt st).1 = None /\
  length (taskLoop.chans (taskLoop.interrupt st).1) = length (taskLoop.chans st) /\
  Forall (fun b => b = true) (taskLoop.chans (taskLoop.interrupt st).1).
Proof.
  intros Hinv. unfold taskLoop.interrupt.
  destruct (taskLoop.stopCh st) as [c0|] eqn:Hstop; simpl.
  - split; [done|]. split; [apply length_insert|].
    apply Forall_lookup. intros i b Hi.
    destruct (decide (i = c0)) as [->|Hne].
    + assert (Hlt : (c0 < length (taskLoop.chans st))%nat).
      { apply lookup_lt_is_Some. exists false. by apply Hinv. }
      rewrite list_lookup_insert_eq in Hi by done. by simplify_eq.
    + rewrite list_lookup_insert_ne in Hi by done.
      destruct b; [done|]. apply Hinv in Hi. by simplify_eq.
  - split; [done|]. split; [done|].
    apply Forall_lookup. intros i b Hi.
    destruct b; [done|]. apply Hinv in Hi. congruence.
Qed.

Lemma step_oneInFlight t st :
  taskLoop.oneInFlight st -> taskLoop.oneInFlight (taskLoop.step w t st).1.
Proof.
  intros Hinv.
  destruct (decide (sealHashOf t = taskLoop.prev st)) as [Hd|Hnew].
  { by rewrite (step_duplicate w t st Hd). }
  destruct (step_new_store t st Hnew) as (skip & -> & _).
  destruct (interrupt_closes st Hinv) as (_ & _ & Hall).
  set (cs := taskLoop.chans (taskLoop.interrupt st).1) in *.
  intros c. simpl. split.
  - intros Hc. f_equal.
    destruct (decide (c < length cs)%nat) as [Hlt|Hge].
    + rewrite lookup_app_l in Hc by done.
      rewrite Forall_lookup in Hall. by specialize (Hall _ _ Hc).
    + assert (is_Some ((cs ++ [false]) !! c)) as Hs by by eexists.
      apply lookup_lt_is_Some in Hs. rewrite length_app in Hs. simpl in Hs. lia.
  - intros [= <-]. by rewrite lookup_app_r, Nat.sub_diag.
Qed.

Lemma run_oneInFlight ts : forall st,
  taskLoop.oneInFlight st -> taskLoop.oneInFlight (taskLoop.run w ts st).1.
Proof.
  induction ts as [|t rest IH]; intros st Hinv; [done|].
  rewrite taskLoop_run_fst. by apply IH, step_oneInFlight.
Qed.

Lemma init_oneInFlight m : taskLoop.oneInFlight (taskLoop.init m).
Proof. intros c. simpl. by rewrite lookup_nil. Qed.

End TaskLoopMore.

(** X5: at most one seal is in flight.  After any sequence of tasks
    handled from the start of the loop, every stop channel the loop has
    made is closed except the one in [stopCh], which is open: the stop
    channels handed to earlier [Seal] calls have all been closed. *)
Theorem taskLoop_one_seal_in_flight
    (w : taskLoop.worker) (ts : list task) (m : gmap Hash task) (c : loc) :
  let st := (taskLoop.run w ts (taskLoop.init m)).1 in
  taskLoop.chans st !! c = Some false <-> taskLoop.stopCh st = Some c.
Proof. apply run_oneInFlight, init_oneInFlight. Qed.

(** X6: shutdown leaves no seal in flight.  When the loop exits after
    any sequence of tasks, every stop channel it has made is closed. *)
Theorem taskLoop_exit_closes_all
    (w : taskLoop.worker) (ts : list task) (m : gmap Hash task) :
  let st := (taskLoop.run w ts (taskLoop.init m)).1 in
  Forall (fun b => b = true) (taskLoop.chans (taskLoop.exit st).1) /\
  taskLoop.stopCh (taskLoop.exit st).1 = None.
Proof.
  intros st.
  destruct (interrupt_closes st (run_oneInFlight w ts _ (init_oneInFlight m)))
    as (Hstop & _ & Hall).
  done.
Qed.

(** X7: the dedup only looks at the task just before.  When a task with
    the seal hash of an earlier one arrives after a task with another
    seal hash, it is sealed again, and it replaces the earlier task in
    the pending tasks. *)
Theorem taskLoop_dedup_is_consecutive_only
    (w : taskLoop.worker) (t1 t2 t3 : task) (st : taskLoop.store) :
  taskLoop.sealHashOf w t3 = taskLoop.sealHashOf w t1 ->
  taskLoop.sealHashOf w t2 <> taskLoop.sealHashOf w t1 ->
  taskLoop.passes w t2 -> taskLoop.passes w t3 ->
  let st1 := (taskLoop.step w t1 st).1 in
  let r := taskLoop.run w [t2; t3] st1 in
  taskLoop.sealed r.2 = [block t2; block t3] /\
  taskLoop.pendingTasks r.1 !! taskLoop.sealHashOf w t1 = Some t3.
Proof.
  intros H31 H21 Hp2 Hp3 st1 r.
  assert (Hprev1 : taskLoop.prev st1 = taskLoop.sealHashOf w t1) by apply step_prev.
  assert (Hnew2 : taskLoop.sealHashOf w t2 <> taskLoop.prev st1) by congruence.
  set (st2 := (taskLoop.step w t2 st1).1).
  assert (Hprev2 : taskLoop.prev st2 = taskLoop.sealHashOf w t2) by apply step_prev.
  assert (Hnew3 : taskLoop.sealHashOf w t3 <> taskLoop.prev st2) by congruence.
  unfold r. rewrite run_pair. cbv zeta. fold st2. split.
  - simpl. rewrite sealed_app, !step_sealed.
    rewrite !decide_False by done. unfold taskLoop.passes in Hp2, Hp3.
    destruct (taskLoop.skipSealHook w) as [hook|]; [by rewrite Hp2, Hp3|done].
  - simpl. rewrite step_new_pendingTasks by done. rewrite <- H31.
    apply lookup_insert_eq.
Qed.

Lemma taskLoop_dedup_is_consecutive_only_witness :
  let w := sample.plainWorker in
  let a := sample.taskAt 5 in
  let b := sample.taskAt 6 in
  let a' := mkTask [] 1%nat (block a) 9 in
  let st1 := (taskLoop.step w a (taskLoop.init ∅)).1 in
  let r := taskLoop.run w [b; a'] st1 in
  taskLoop.sealed r.2 = [block b; block a'] /\
  taskLoop.pendingTasks r.1 !! taskLoop.sealHashOf w a = Some a'.
Proof.
  intros w a b a' st1 r.
  apply (taskLoop_dedup_is_consecutive_only w a b a' (taskLoop.init ∅));
    vm_compute; done.
Defined.

(** X8: a synchronous [Seal] error is only logged.  The task stays
    among the pending tasks and its seal hash stays the dedup key, so
    that the same task submitted again is dropped and [Seal] is not
    tried again for it. *)
Theorem taskLoop_seal_error_not_retried
    (w : taskLoop.worker) (t : task) (st : taskLoop.store) :
  taskLoop.sealHashOf w t <> taskLoop.prev st ->
  taskLoop.passes w t ->
  is_Some (Seal (taskLoop.engine w) (block t)
             (length (taskLoop.chans (taskLoop.interrupt st).1))) ->
  let r := taskLoop.step w t st in
  taskLoop.LogWarn "Block sealing failed" ∈ r.2 /\
  taskLoop.sealed r.2 = [block t] /\
  taskLoop.pendingTasks r.1 !! taskLoop.sealHashOf w t = Some t /\
  taskLoop.step w t r.1 = (r.1, taskLoop.hookTrace w t).
Proof.
  intros Hnew Hpass [msg Herr] r.
  split; [|split; [|split]].
  - unfold r, taskLoop.step. case_decide; [contradiction|].
    destruct (taskLoop.interrupt st) as [st1 ev1]. simpl in Herr.
    unfold taskLoop.passes in Hpass.
    destruct (taskLoop.skipSealHook w) as [hook|]; [rewrite Hpass|];
      rewrite Herr; simpl; rewrite !elem_of_app; right; right;
      rewrite ?elem_of_cons; auto.
  - unfold r. rewrite step_sealed, decide_False by done.
    unfold taskLoop.passes in Hpass.
    destruct (taskLoop.skipSealHook w) as [hook|]; [by rewrite Hpass|done].
  - unfold r. rewrite step_new_pendingTasks by done. apply lookup_insert_eq.
  - apply step_duplicate. unfold r. by rewrite step_prev.
Qed.

Lemma taskLoop_seal_error_not_retried_witness :
  let w := sample.failingWorker in
  let t := sample.taskAt 5 in
  let r := taskLoop.step w t (taskLoop.init ∅) in
  taskLoop.LogWarn "Block sealing failed" ∈ r.2 /\
  taskLoop.sealed r.2 = [block t] /\
  taskLoop.pendingTasks r.1 !! taskLoop.sealHashOf w t = Some t /\
  taskLoop.step w t r.1 = (r.1, taskLoop.hookTrace w t).
Proof.
  intros w t r.
  apply (taskLoop_seal_error_not_retried w t (taskLoop.init ∅)).
  - vm_compute. discriminate.
  - exact I.
  - eexists. reflexivity.
Defined.

Lemma step_pendingTasks_cases w t st :
  taskLoop.pendingTasks (taskLoop.step w t st).1 = taskLoop.pendingTasks st \/
  taskLoop.pendingTasks (taskLoop.step w t st).1 =
    <[taskLoop.sealHashOf w t := t]> (taskLoop.pendingTasks st).
Proof.
  destruct (decide (taskLoop.sealHashOf w t = taskLoop.prev st)) as [Hd|Hnew].
  { left. by rewrite (step_duplicate w t st Hd). }
  destruct (step_new_store w t st Hnew) as ([] & -> & _); auto.
Qed.

(** X9: the dispatcher keeps the pending tasks keyed by seal hash and
    never drops one.  After any sequence of tasks handled from an empty
    store, every entry is one of the tasks received, stored under its
    own seal hash; and whatever the store held before a run, every key
    it had is still there. *)
Theorem taskLoop_pendingTasks_keyed (w : taskLoop.worker) (ts : list task) :
  (forall k t,
     taskLoop.pendingTasks (taskLoop.run w ts (taskLoop.init ∅)).1 !! k = Some t ->
     k = taskLoop.sealHashOf w t /\ t ∈ ts) /\
  (forall st k,
     is_Some (taskLoop.pendingTasks st !! k) ->
     is_Some (taskLoop.pendingTasks (taskLoop.run w ts st).1 !! k)).
Proof.
  split.
  - assert (Hgen : forall st k t,
              taskLoop.pendingTasks (taskLoop.run w ts st).1 !! k = Some t ->
              taskLoop.pendingTasks st !! k = Some t \/
              (k = taskLoop.sealHashOf w t /\ t ∈ ts)).
    { induction ts as [|t0 rest IH]; intros st k t Hk; [by left|].
      rewrite taskLoop_run_fst in Hk.
      destruct (IH _ _ _ Hk) as [Hk1|[-> Hin]];
        [|right; split; [done|by right]].
      destruct (step_pendingTasks_cases w t0 st) as [Heq|Heq];
        rewrite Heq in Hk1; [by left|].
      destruct (decide (taskLoop.sealHashOf w t0 = k)) as [<-|Hne].
      - rewrite lookup_insert_eq in Hk1. simplify_eq. right. split; [done|by left].
      - rewrite lookup_insert_ne in Hk1 by done. by left. }
    intros k t Hk. destruct (Hgen _ _ _ Hk) as [Hk0|?]; [|done].
    simpl in Hk0. by rewrite lookup_empty in Hk0.
  - induction ts as [|t0 rest IH]; intros st k Hk; [done|].
    rewrite taskLoop_run_fst. apply IH.
    destruct (step_pendingTasks_cases w t0 st) as [->| ->]; [done|].
    rewrite lookup_insert. case_decide; [by eexists|done].
Qed.

(** X10: only received tasks are sealed, each at most once per arrival
    and in the order of arrival: the blocks given to [Seal] during a run
    are a sublist of the blocks of the tasks received. *)
Theorem taskLoop_sealed_sublist (w : taskLoop.worker) (ts : list task) :
  forall st, sublist (taskLoop.sealed (taskLoop.run w ts st).2) (block <$> ts).
Proof.
  induction ts as [|t rest IH]; intros st.
  - simpl. constructor.
  - rewrite taskLoop_run_snd, sealed_app, step_sealed, fmap_cons.
    case_decide; [apply sublist_cons, IH|].
    destruct (taskLoop.skipSealHook w) as [hook|]; [destruct (hook t)|];
      (apply sublist_cons, IH) || (apply sublist_skip, IH).
Qed.

(** ** resultLoop *)

Lemma sample_stamp :
  resultLoop.stampReceipts 101 5 0 (receipts sample.task5) sample.heap0 [] [] =
  Some (mkHeap [Receipt.locate 101 5 0 sample.receipt0;
                Receipt.locate 101 5 0 sample.receipt0]
               [resultLoop.stampLog 101 sample.log0;
                resultLoop.stampLog 101 sample.log1],
        [1%nat], [0%nat; 1%nat]).
Proof. reflexivity. Defined.

Lemma stampReceipts_copies_witness :
  exists q c,
    [1%nat] !! 0%nat = Some q /\ receiptsAt sample.heap0 !! q = None /\
    [Receipt.locate 101 5 0 sample.receipt0;
     Receipt.locate 101 5 0 sample.receipt0] !! q = Some c /\
    Receipt.BlockHash c = 101 /\ Receipt.BlockNumber c = 5 /\
    Receipt.TransactionIndex c = Z.of_nat 0 /\
    Receipt.Logs c = Receipt.Logs sample.receipt0.
Proof.
  exact (proj2 (stampReceipts_copies 101 5 sample.task5 sample.heap0 _ _ _
                  sample_task5_allocated sample_stamp)
           0%nat 0%nat sample.receipt0 eq_refl eq_refl).
Defined.

Lemma stampReceipts_logs_witness :
  exists y,
    [resultLoop.stampLog 101 sample.log0; resultLoop.stampLog 101 sample.log1]
      !! 0%nat = Some y /\
    Log.BlockHash y = 101 /\
    Log.TxHash y =
      (if decide (Log.TxHash sample.log0 = zeroHash) then 101
       else Log.TxHash sample.log0).
Proof.
  refine (proj2 (stampReceipts_logs 101 5 sample.task5 sample.heap0 _ _ _
                   sample_task5_allocated sample_stamp)
            0%nat sample.log0 _ eq_refl).
  repeat constructor.
Defined.

Lemma lookup_same_length {A B} (a : list A) (b : list B) :
  (forall i, is_Some (a !! i) <-> is_Some (b !! i)) -> length a = length b.
Proof.
  intros H. apply Nat.le_antisymm; apply Nat.nlt_ge; intros Hlt.
  - assert (is_Some (a !! length b)) as Hs by by apply lookup_lt_is_Some.
    apply H, lookup_lt_is_Some in Hs. lia.
  - assert (is_Some (b !! length a)) as Hs by by apply lookup_lt_is_Some.
    apply H, lookup_lt_is_Some in Hs. lia.
Qed.

(** X13: the stamping is done in place.  Committing a result writes the
    block location into the task's own receipt objects as well, leaves
    every other receipt and every log outside the task's receipts as it
    was, allocates one receipt per receipt of the task and allocates no
    log. *)
Theorem stampReceipts_in_place hash number t m m' out logs :
  resultLoop.allocated m t ->
  resultLoop.stampReceipts hash number 0 (receipts t) m [] [] = Some (m', out, logs) ->
  (forall p r, p ∈ receipts t -> receiptsAt m !! p = Some r ->
     exists j, receiptsAt m' !! p = Some (Receipt.locate hash number j r)) /\
  (forall p, p ∉ receipts t -> (p < length (receiptsAt m))%nat ->
     receiptsAt m' !! p = receiptsAt m !! p) /\
  (forall l, l ∉ logs -> logsAt m' !! l = logsAt m !! l) /\
  length (receiptsAt m') = (length (receiptsAt m) + length (receipts t))%nat /\
  length (logsAt m') = length (logsAt m).
Proof.
  intros Halloc Hrun.
  destruct (stampReceipts_inv hash number (receipts t) 0%nat m [] [] m' out logs
              (allocated_receiptsOk _ _ Halloc) Hrun)
    as (_ & Hlogs & Hlen & _ & Hkeep & Hown & Hl).
  simpl in Hlogs. subst logs.
  split; [done|]. split; [done|]. split; [|split; [done|]].
  - intros l Hnot. by rewrite Hl, decide_False.
  - apply lookup_same_length. intros l. rewrite Hl.
    case_decide; [|done]. by rewrite fmap_is_Some.
Qed.

Lemma stampReceipts_in_place_witness :
  exists j,
    [Receipt.locate 101 5 0 sample.receipt0;
     Receipt.locate 101 5 0 sample.receipt0] !! 0%nat =
    Some (Receipt.locate 101 5 j sample.receipt0).
Proof.
  refine (proj1 (stampReceipts_in_place 101 5 sample.task5 sample.heap0 _ _ _
                   sample_task5_allocated sample_stamp)
            0%nat sample.receipt0 _ eq_refl).
  repeat constructor.
Defined.

Section ResultLoopMore.
Context {C : Type} {bc : BlockChain C}.
Variable engine : Engine.

(** The traces an iteration can leave, by what became of the result. *)
Lemma step_cases result now (st st' : resultLoop.store C) tr :
  resultLoop.step engine result now st = Some (st', tr) ->
  resultLoop.pendingTasks st' = resultLoop.pendingTasks st /\
  ((st' = st /\ resultLoop.written tr = [] /\ resultLoop.posts tr = []) \/
   (exists b rs ls t c' e,
      result = Some b /\
      HasBlock (resultLoop.chain st) (hash b) (NumberU64 b) = false /\
      resultLoop.pendingTasks st !! SealHash engine (header b) = Some t /\
      WriteBlockWithState (resultLoop.chain st) b rs ls (state t) true
        (resultLoop.mem st') = (c', e) /\
      resultLoop.chain st' = c' /\
      resultLoop.written tr = [b] /\
      resultLoop.posts tr = match e with Some _ => [] | None => [b] end)).
Proof.
  unfold resultLoop.step. intros Hstep.
  destruct result as [b|]; [|simplify_eq; auto].
  destruct (HasBlock _ _ _) eqn:Hhas; [simplify_eq; auto|].
  destruct (resultLoop.pendingTasks st !! _) as [t|] eqn:Ht; [|simplify_eq; auto].
  destruct (resultLoop.stampReceipts _ _ _ _ _ _ _) as [[[m rs] ls]|]; [|done].
  destruct (WriteBlockWithState _ _ _ _ _ _ _) as [c' e] eqn:Hw.
  destruct e as [msg|]; simplify_eq; (split; [done|]); right;
    eexists b, rs, ls, t, c', _; simpl; eauto 10.
Qed.

End ResultLoopMore.

(** X14: the committer never touches the pending tasks.  Whatever
    results it handles, written or dropped, the pending tasks are
    afterwards what they were before: a committed task is not removed
    by the commit. *)
Theorem resultLoop_keeps_pendingTasks
    {C : Type} {bc : BlockChain C} (engine : Engine)
    (results : list (option Block * Z)) :
  forall (st st' : resultLoop.store C) tr,
  resultLoop.run engine results st = Some (st', tr) ->
  resultLoop.pendingTasks st' = resultLoop.pendingTasks st.
Proof.
  induction results as [|[result now] rest IH]; intros st st' tr Hrun.
  - simpl in Hrun. by simplify_eq.
  - rewrite run_cons in Hrun.
    destruct (resultLoop.step engine result now st) as [[st1 ev1]|] eqn:Hs; [|done].
    destruct (resultLoop.run engine rest st1) as [[st2 ev2]|] eqn:Hr; [|done].
    simplify_eq. rewrite (IH _ _ _ Hr).
    by destruct (step_cases engine _ _ _ _ _ Hs) as [-> _].
Qed.

Lemma resultLoop_keeps_pendingTasks_witness :
  exists st' tr,
    resultLoop.run (bc := sample.memChain) sample.engine
      [(Some sample.sealedA, 5000000000); (None, 0)] sample.store0 = Some (st', tr) /\
    resultLoop.pendingTasks st' = resultLoop.pendingTasks sample.store0.
Proof.
  destruct (resultLoop.run (bc := sample.memChain) sample.engine
              [(Some sample.sealedA, 5000000000); (None, 0)] sample.store0)
    as [[st' tr]|] eqn:E; [|vm_compute in E; discriminate].
  exists st', tr. split; [done|].
  exact (resultLoop_keeps_pendingTasks (bc := sample.memChain) _ _ _ _ _ E).
Defined.

(** X15: a block is committed once.  With a chain store that reports
    the blocks it has written, a sealed block that was committed and
    announced is skipped without a trace when the engine delivers it
    again, although its task is still pending. *)
Theorem resultLoop_commits_once
    {C : Type} {bc : BlockChain C} (engine : Engine)
    (b : Block) (now now' : Z) (st st1 : resultLoop.store C)
    (tr : list resultLoop.event) :
  (forall c blk rs ls s m c',
     WriteBlockWithState c blk rs ls s true m = (c', None) ->
     HasBlock c' (hash blk) (NumberU64 blk) = true) ->
  resultLoop.step engine (Some b) now st = Some (st1, tr) ->
  resultLoop.Post b ∈ tr ->
  resultLoop.step engine (Some b) now' st1 = Some (st1, []) /\
  is_Some (resultLoop.pendingTasks st1 !! SealHash engine (header b)).
Proof.
  intros Hlaw Hstep Hpost.
  destruct (step_cases engine _ _ _ _ _ Hstep) as [Hpend [(-> & _ & Hposts)|Hw]].
  { assert (b ∈ resultLoop.posts tr) as Hin.
    { apply list_elem_of_omap. by exists (resultLoop.Post b). }
    rewrite Hposts in Hin. by apply elem_of_nil in Hin. }
  destruct Hw as (b' & rs & ls & t & c' & e & [= <-] & _ & Ht & Hw & Hc & _ & Hposts).
  destruct e as [msg|].
  { assert (b ∈ resultLoop.posts tr) as Hin.
    { apply list_elem_of_omap. by exists (resultLoop.Post b). }
    rewrite Hposts in Hin. by apply elem_of_nil in Hin. }
  split; [|rewrite Hpend; by eexists].
  unfold resultLoop.step. rewrite Hc. by rewrite (Hlaw _ _ _ _ _ _ _ Hw).
Qed.

Lemma resultLoop_commits_once_witness :
  exists st1,
    resultLoop.step (bc := sample.memChain) sample.engine (Some sample.sealedA)
      6000000000 st1 = Some (st1, []) /\
    is_Some (resultLoop.pendingTasks st1 !! SealHash sample.engine (header sample.sealedA)).
Proof.
  destruct (resultLoop.step (bc := sample.memChain) sample.engine
              (Some sample.sealedA) 5000000000 sample.store0)
    as [[st1 tr]|] eqn:E; [|vm_compute in E; discriminate].
  exists st1.
  apply (resultLoop_commits_once (bc := sample.memChain) sample.engine
           sample.sealedA 5000000000 6000000000 sample.store0 st1 tr).
  - intros c blk rs ls s m c' [= <-]. simpl.
    apply bool_decide_eq_true. by left.
  - exact E.
  - vm_compute in E. injection E as <- <-. repeat constructor.
Defined.

Lemma posts_app tr1 tr2 :
  resultLoop.posts (tr1 ++ tr2) = resultLoop.posts tr1 ++ resultLoop.posts tr2.
Proof. apply omap_app. Qed.

Lemma written_app tr1 tr2 :
  resultLoop.written (tr1 ++ tr2) = resultLoop.written tr1 ++ resultLoop.written tr2.
Proof. unfold resultLoop.written, resultLoop.writes. by rewrite omap_app, fmap_app. Qed.

(** X16: nothing is announced that was not written, and nothing is
    written that the engine did not deliver.  In every run the blocks of
    the new-mined-block events are a sublist of the blocks written to
    the chain store, which are a sublist of the results received. *)
Theorem resultLoop_posts_written_received
    {C : Type} {bc : BlockChain C} (engine : Engine)
    (results : list (option Block * Z)) :
  forall (st st' : resultLoop.store C) tr,
  resultLoop.run engine results st = Some (st', tr) ->
  sublist (resultLoop.posts tr) (resultLoop.written tr) /\
  sublist (resultLoop.written tr) (omap fst results).
Proof.
  induction results as [|[result now] rest IH]; intros st st' tr Hrun.
  - simpl in Hrun. simplify_eq. split; constructor.
  - rewrite run_cons in Hrun.
    destruct (resultLoop.step engine result now st) as [[st1 ev1]|] eqn:Hs; [|done].
    destruct (resultLoop.run engine rest st1) as [[st2 ev2]|] eqn:Hr; [|done].
    simplify_eq. destruct (IH _ _ _ Hr) as [IH1 IH2].
    rewrite posts_app, written_app.
    destruct (step_cases engine _ _ _ _ _ Hs) as [_ [(_ & -> & ->)|Hw]].
    + split; [done|]. simpl. destruct result; simpl; [by apply sublist_cons|done].
    + destruct Hw as (b & rs & ls & t & c' & e & -> & _ & _ & _ & _ & -> & ->).
      simpl. split; [|by apply sublist_skip].
      destruct e; simpl; [by apply sublist_cons|by apply sublist_skip].
Qed.

Lemma resultLoop_posts_written_received_witness :
  exists st' tr,
    resultLoop.run (bc := sample.fullChain) sample.engine
      [(Some sample.sealedA, 5000000000); (None, 0)] sample.store0 = Some (st', tr) /\
    sublist (resultLoop.posts tr) (resultLoop.written tr) /\
    sublist (resultLoop.written tr) [sample.sealedA].
Proof.
  destruct (resultLoop.run (bc := sample.fullChain) sample.engine
              [(Some sample.sealedA, 5000000000); (None, 0)] sample.store0)
    as [[st' tr]|] eqn:E; [|vm_compute in E; discriminate].
  exists st', tr. split; [done|].
  exact (resultLoop_posts_written_received (bc := sample.fullChain) _ _ _ _ _ E).
Defined.

(** ** The loops together *)

(** X17: from dispatch to commit.  A task the dispatcher has delegated
    is found by the committer when the engine delivers a block with the
    task's seal hash, as long as the scheduler has not seen a head 7 or
    more above the task's height: the block is written to the chain
    store with the task's state. *)
Theorem pipeline_result_resolves_task
    {C : Type} {bc : BlockChain C} (w : taskLoop.worker) (t : task)
    (tst : taskLoop.store) (n : Z) (b : Block) (now : Z) (c : C) (m : heap) :
  taskLoop.sealHashOf w t <> taskLoop.prev tst ->
  taskLoop.passes w t ->
  NumberU64 (block t) + 7 < 2 ^ 64 ->
  n < NumberU64 (block t) + 7 ->
  SealHash (taskLoop.engine w) (header b) = taskLoop.sealHashOf w t ->
  HasBlock c (hash b) (NumberU64 b) = false ->
  resultLoop.allocated m t ->
  let pending :=
    newWorkLoop.clearPending n (taskLoop.pendingTasks (taskLoop.step w t tst).1) in
  exists st' rs ls tr,
    resultLoop.step (taskLoop.engine w) (Some b) now (resultLoop.mkStore c pending m)
      = Some (st', resultLoop.Write b rs ls (state t) true :: tr).
Proof.
  intros Hnew Hpass Hov Hn Hseal Hhas Halloc pending.
  assert (Hk : pending !! SealHash (taskLoop.engine w) (header b) = Some t).
  { unfold pending. rewrite Hseal. apply clearPending_lookup. split.
    - rewrite step_new_pendingTasks by done. apply lookup_insert_eq.
    - apply stale_false. unfold staleThreshold. rewrite uint64_small; [lia|].
      pose proof (NumberU64_range (block t)). lia. }
  destruct (stampReceipts_total (hash b) (Number (header b)) (receipts t) 0%nat
              m [] [] (allocated_receiptsOk _ _ Halloc))
    as [[[m' rs] ls] Hstamp].
  rewrite (step_resolved (taskLoop.engine w) b now (resultLoop.mkStore c pending m)
             t m' rs ls Hhas Hk Hstamp).
  cbv zeta. destruct (WriteBlockWithState _ _ _ _ _ _ _).2; eauto.
Qed.

Lemma pipeline_result_resolves_task_witness :
  let pending :=
    newWorkLoop.clearPending 11
      (taskLoop.pendingTasks
         (taskLoop.step sample.plainWorker sample.task5 (taskLoop.init ∅)).1) in
  exists st' rs ls tr,
    resultLoop.step (bc := sample.memChain) sample.engine (Some sample.sealedA)
      5000000000 (resultLoop.mkStore [] pending sample.heap0)
      = Some (st', resultLoop.Write sample.sealedA rs ls (state sample.task5) true :: tr).
Proof.
  apply (pipeline_result_resolves_task (bc := sample.memChain) sample.plainWorker
           sample.task5 (taskLoop.init ∅) 11 sample.sealedA 5000000000 []
           sample.heap0).
  - vm_compute. discriminate.
  - exact I.
  - vm_compute. reflexivity.
  - vm_compute. reflexivity.
  - reflexivity.
  - reflexivity.
  - exact sample_task5_allocated.
Defined.

(** X18: a late result is lost.  Once the scheduler has seen a head 7
    or more above the height of a delegated task, a block the engine
    delivers for that task is dropped with the error log and nothing is
    written, although the block is new to the chain store. *)
Theorem pipeline_late_result_dropped
    {C : Type} {bc : BlockChain C} (w : taskLoop.worker) (t : task)
    (tst : taskLoop.store) (n : Z) (b : Block) (now : Z) (c : C) (m : heap) :
  taskLoop.pendingTasks tst !! taskLoop.sealHashOf w t = None ->
  NumberU64 (block t) + 7 <= n ->
  SealHash (taskLoop.engine w) (header b) = taskLoop.sealHashOf w t ->
  HasBlock c (hash b) (NumberU64 b) = false ->
  let pending :=
    newWorkLoop.clearPending n (taskLoop.pendingTasks (taskLoop.step w t tst).1) in
  resultLoop.step (taskLoop.engine w) (Some b) now (resultLoop.mkStore c pending m)
    = Some (resultLoop.mkStore c pending m,
            [resultLoop.LogError "Block found but no relative pending task"]).
Proof.
  intros Hfree Hn Hseal Hhas pending.
  assert (Hk : pending !! SealHash (taskLoop.engine w) (header b) = None).
  { unfold pending. rewrite Hseal.
    destruct (newWorkLoop.clearPending n _ !! _) as [t'|] eqn:E; [|done].
    apply clearPending_lookup in E as [Hk Hs]. apply stale_false in Hs.
    destruct (step_pendingTasks_cases w t tst) as [Heq|Heq]; rewrite Heq in Hk.
    - congruence.
    - rewrite lookup_insert_eq in Hk. simplify_eq.
      pose proof (NumberU64_range (block t')).
      pose proof (uint64_le (NumberU64 (block t') + staleThreshold)).
      unfold staleThreshold in *. lia. }
  unfold resultLoop.step. cbn [resultLoop.chain resultLoop.pendingTasks].
  by rewrite Hhas, Hk.
Qed.

Lemma pipeline_late_result_dropped_witness :
  let pending :=
    newWorkLoop.clearPending 12
      (taskLoop.pendingTasks
         (taskLoop.step sample.plainWorker sample.task5 (taskLoop.init ∅)).1) in
  resultLoop.step (bc := sample.memChain) sample.engine (Some sample.sealedA)
    5000000000 (resultLoop.mkStore [] pending sample.heap0)
    = Some (resultLoop.mkStore [] pending sample.heap0,
            [resultLoop.LogError "Block found but no relative pending task"]).
Proof.
  apply (pipeline_late_result_dropped (bc := sample.memChain) sample.plainWorker
           sample.task5 (taskLoop.init ∅) 12 sample.sealedA 5000000000 []
           sample.heap0).
  - reflexivity.
  - vm_compute. discriminate.
  - reflexivity.
  - reflexivity.
Defined.

(** ** copyReceipts *)

Lemma copyReceiptsFrom_spec rs : forall hr result,
  Forall (fun l => (l < length hr)%nat) rs ->
  exists cs,
    copyReceiptsFrom rs hr result =
      Some (hr ++ cs, result ++ seq (length hr) (length rs)) /\
    length cs = length rs /\
    forall i l, rs !! i = Some l -> cs !! i = hr !! l.
Proof.
  induction rs as [|l rest IH]; intros hr result Hall; simpl.
  - exists []. by rewrite !app_nil_r.
  - apply Forall_cons in Hall as [Hl Hrest].
    destruct (lookup_lt_is_Some_2 hr l Hl) as [cpy Hcpy]. rewrite Hcpy.
    destruct (IH (hr ++ [cpy]) (result ++ [length hr])) as (cs & -> & Hlen & Hcs).
    { eapply Forall_impl; [exact Hrest|]. simpl. intros p Hp.
      rewrite length_app. simpl. lia. }
    exists (cpy :: cs). split; [|split].
    + rewrite <- !app_assoc. repeat f_equal. rewrite length_app. simpl.
      by rewrite Nat.add_1_r.
    + simpl. by rewrite Hlen.
    + intros [|i] l' Hi; simpl in *; [by simplify_eq|].
      rewrite (Hcs i l' Hi). apply lookup_app_l.
      rewrite Forall_forall in Hrest. apply Hrest.
      by eapply list_elem_of_lookup_2.
Qed.

(** X19: [copyReceipts] copies the receipt structs and nothing below
    them.  For allocated receipts it returns as many new objects, each
    with the contents of the receipt at the same position, so that a
    copy has the very log pointers of its original; the originals are
    left as they were. *)
Theorem copyReceipts_shallow (rs : list loc) (hr : list Receipt.t) :
  (forall l, l ∈ rs -> is_Some (hr !! l)) ->
  exists hr' result,
    copyReceipts rs hr = Some (hr', result) /\
    result = seq (length hr) (length rs) /\
    (forall p, (p < length hr)%nat -> hr' !! p = hr !! p) /\
    (forall i l r, rs !! i = Some l -> hr !! l = Some r ->
       exists q, result !! i = Some q /\ hr !! q = None /\ hr' !! q = Some r).
Proof.
  intros Halloc.
  destruct (copyReceiptsFrom_spec rs hr []) as (cs & Hrun & Hlen & Hcs).
  { apply Forall_forall. intros l Hl. by apply lookup_lt_is_Some, Halloc. }
  exists (hr ++ cs), (seq (length hr) (length rs)).
  split; [done|]. split; [done|]. split.
  - intros p Hp. by apply lookup_app_l.
  - intros i l r Hi Hr. exists (length hr + i)%nat.
    assert (Hlt : (i < length rs)%nat) by by eapply lookup_lt_Some.
    split; [by apply lookup_seq|]. split; [apply lookup_ge_None; lia|].
    rewrite lookup_app_r by lia.
    replace (length hr + i - length hr)%nat with i by lia.
    by rewrite (Hcs i l Hi).
Qed.

Lemma copyReceipts_shallow_witness :
  exists hr' result,
    copyReceipts [0%nat; 0%nat] [sample.receipt0] = Some (hr', result) /\
    result = [1%nat; 2%nat] /\
    (Receipt.Logs <$> hr' !! 2%nat) = Some (Receipt.Logs sample.receipt0).
Proof.
  destruct (copyReceipts_shallow [0%nat; 0%nat] [sample.receipt0])
    as (hr' & result & Hrun & -> & _ & Hcopy).
  { intros l Hl. apply lookup_lt_is_Some. simpl.
    apply elem_of_cons in Hl as [->|Hl]; [lia|].
    apply list_elem_of_singleton in Hl as ->. lia. }
  exists hr', [1%nat; 2%nat]. split; [done|]. split; [done|].
  destruct (Hcopy 1%nat 0%nat sample.receipt0 eq_refl eq_refl) as (q & Hq & _ & Hr).
  simpl in Hq. injection Hq as <-. by rewrite Hr.
Defined.

(** ** contract_comm/caller *)

Section Caller.
Variable vm : caller.VM.
Variable c : caller.ContractCaller.

(** Events that are neither a contract call, nor the timer, nor a
    finalisation of the state. *)
Local Abbreviation quiet :=
  (fun e => caller.isContractCall e = false /\ caller.isTimer e = false /\
            caller.isFinalise e = false).

Lemma createEVM_quiet header state :
  Forall quiet (caller.createEVM c header state).2.
Proof.
  unfold caller.createEVM. destruct (caller.chain c) as [ch|]; [|constructor].
  destruct (caller.isNil state); [|constructor].
  destruct (caller.State ch) as [s [e|]]; repeat constructor.
Qed.

Lemma GetRegisteredAddress_quiet registryId header state :
  Forall quiet (caller.GetRegisteredAddress vm c registryId header state).2.
Proof.
  unfold caller.GetRegisteredAddress.
  pose proof (createEVM_quiet header state) as Hq.
  destruct (caller.createEVM c header state) as [[evm|e] ev]; simpl in *; [|done].
  apply Forall_app. split; [done|]. repeat constructor.
Qed.

(** [makeCallFromSystem] by what [createEVM] and the call return. *)
Lemma makeCallFromSystem_ok scAddress cl gas value header state static evm ev :
  caller.createEVM c header state = (inl evm, ev) ->
  caller.makeCallFromSystem vm c scAddress cl gas value header state static =
    let timer := caller.TimerUpdateSince ("contract_comm/systemcall/" ++ caller.funcName cl) in
    let res := if static then caller.StaticCallFromSystem vm evm scAddress cl gas
               else caller.CallFromSystem vm evm scAddress cl gas value in
    let evc := if static then caller.StaticCall evm scAddress cl gas
               else caller.Call evm scAddress cl gas value in
    (res,
     ev ++ [evc] ++
     match res.2 with
     | Some _ => [caller.LogError "Error when invoking evm function"; timer]
     | None => [timer]
     end).
Proof.
  intros Hevm. unfold caller.makeCallFromSystem. rewrite Hevm.
  destruct static.
  - destruct (caller.StaticCallFromSystem vm evm scAddress cl gas) as [g [e|]]; done.
  - destruct (caller.CallFromSystem vm evm scAddress cl gas value) as [g [e|]]; done.
Qed.

Lemma makeCallFromSystem_no_finalise scAddress cl gas value header state static :
  Forall (fun e => caller.isFinalise e = false)
    (caller.makeCallFromSystem vm c scAddress cl gas value header state static).2.
Proof.
  pose proof (createEVM_quiet header state) as Hq.
  assert (Hq' : Forall (fun e => caller.isFinalise e = false)
                  (caller.createEVM c header state).2).
  { eapply Forall_impl; [exact Hq|]. simpl. tauto. }
  destruct (caller.createEVM c header state) as [[evm|e] ev] eqn:Hevm; simpl in Hq'.
  - rewrite (makeCallFromSystem_ok _ _ _ _ _ _ _ evm ev Hevm). simpl.
    apply Forall_app. split; [done|].
    destruct static; constructor; try done;
      destruct (_ : Z * option caller.err) as [g [e|]]; repeat constructor.
  - unfold caller.makeCallFromSystem. rewrite Hevm. simpl.
    apply Forall_app. split; [done|]. repeat constructor.
Qed.

Lemma makeCallWithContractId_no_finalise registryId cl gas value header state static r :
  caller.makeCallWithContractId vm c registryId cl gas value header state static = Some r ->
  Forall (fun e => caller.isFinalise e = false) r.2.
Proof.
  unfold caller.makeCallWithContractId.
  pose proof (GetRegisteredAddress_quiet registryId header state) as Hq.
  assert (Hq' : Forall (fun e => caller.isFinalise e = false)
                  (caller.GetRegisteredAddress vm c registryId header state).2).
  { eapply Forall_impl; [exact Hq|]. simpl. tauto. }
  destruct (caller.GetRegisteredAddress vm c registryId header state)
    as [[a [e|]] ev]; simpl in Hq'.
  - intros H. assert (r = (0, Some e, ev ++ [caller.lookupFailureLog e])) as ->
      by (destruct a; by simplify_eq).
    simpl. apply Forall_app. split; [done|].
    destruct e; repeat constructor.
  - destruct a as [scAddress|]; [|done].
    pose proof (makeCallFromSystem_no_finalise scAddress cl gas value header state static)
      as Hm.
    destruct (caller.makeCallFromSystem _ _ _ _ _ _ _ _ _) as [[g e] ev2].
    intros H. simplify_eq. simpl in *. rewrite !Forall_app.
    split; [done|]. split; [done|]. destruct e; repeat constructor.
Qed.

End Caller.

Lemma makeCallWithContractId_lookup_failed
    vm c registryId cl gas value header state static a e ev :
  caller.GetRegisteredAddress vm c registryId header state = ((a, Some e), ev) ->
  caller.makeCallWithContractId vm c registryId cl gas value header state static =
    Some ((0, Some e), ev ++ [caller.lookupFailureLog e]).
Proof.
  intros H. unfold caller.makeCallWithContractId. rewrite H. by destruct a.
Qed.

(** X20: a caller without a chain fails cleanly.  Every entry point
    returns [ErrNoInternalEvmHandlerSingleton] with no gas left; no
    registry lookup and no contract call is made, and only a call by
    address still records its timer. *)
Theorem caller_without_chain
    (vm : caller.VM) (registryId scAddress : Z) (cl : caller.call) (gas : Z)
    (value : option Z) (header : option Header) (state : caller.StateDB)
    (finaliseState : bool) :
  let c := caller.mkCaller None in
  let failed := Some ((0, Some caller.ErrNoInternalEvmHandlerSingleton),
                      [caller.LogError "Error in getting registered address"]) in
  caller.MakeCall vm c registryId cl gas value header state finaliseState = failed /\
  caller.MakeStaticCall vm c registryId cl gas header state = failed /\
  caller.MakeStaticCallWithAddress vm c scAddress cl gas header state =
    ((0, Some caller.ErrNoInternalEvmHandlerSingleton),
     [caller.TimerUpdateSince ("contract_comm/systemcall/" ++ caller.funcName cl)]).
Proof. done. Qed.

(** X21: when the registry lookup fails, nothing is called.  [MakeCall]
    and [MakeStaticCall] return the lookup's error unchanged with no gas
    left; their traces are the lookup's followed by one log line, at
    debug level for the two not-deployed errors and at error level
    otherwise, and hold no contract call, no timer and no
    finalisation. *)
Theorem caller_lookup_failure
    (vm : caller.VM) (c : caller.ContractCaller) (registryId : Z) (cl : caller.call)
    (gas : Z) (value : option Z) (header : option Header) (state : caller.StateDB)
    (finaliseState : bool) (a : option Z) (e : caller.err) (ev : list caller.event) :
  caller.GetRegisteredAddress vm c registryId header state = ((a, Some e), ev) ->
  let failed := Some ((0, Some e), ev ++ [caller.lookupFailureLog e]) in
  caller.MakeCall vm c registryId cl gas value header state finaliseState = failed /\
  caller.MakeStaticCall vm c registryId cl gas header state = failed /\
  Forall (fun x => caller.isContractCall x = false /\ caller.isTimer x = false /\
                   caller.isFinalise x = false)
    (ev ++ [caller.lookupFailureLog e]) /\
  (caller.lookupFailureLog e = caller.LogError "Error in getting registered address" <->
   e <> caller.ErrSmartContractNotDeployed /\
   e <> caller.ErrRegistryContractNotDeployed).
Proof.
  intros Hlookup failed.
  split; [|split; [|split]].
  - unfold caller.MakeCall.
    by rewrite (makeCallWithContractId_lookup_failed _ _ _ _ _ _ _ _ _ a e ev Hlookup).
  - unfold caller.MakeStaticCall.
    by rewrite (makeCallWithContractId_lookup_failed _ _ _ _ _ _ _ _ _ a e ev Hlookup).
  - pose proof (GetRegisteredAddress_quiet vm c registryId header state) as Hq.
    rewrite Hlookup in Hq. apply Forall_app. split; [done|].
    destruct e; repeat constructor.
  - destruct e; simpl; split; (intros [? ?] || intros ?); try done; by split.
Qed.

Lemma caller_lookup_failure_witness :
  let ev := [caller.RegistryLookup 2
               (caller.mkEVM (sample.headerAt 9 0) (caller.stateAt 3))] in
  let failed := Some ((0, Some caller.ErrSmartContractNotDeployed),
                      ev ++ [caller.LogDebug "Contract not yet registered"]) in
  caller.MakeCall sample.vm0 sample.caller0 2 sample.call0 1000 None None
    (caller.stateAt 3) true = failed /\
  caller.MakeStaticCall sample.vm0 sample.caller0 2 sample.call0 1000 None
    (caller.stateAt 3) = failed.
Proof.
  intros ev failed.
  destruct (caller_lookup_failure sample.vm0 sample.caller0 2 sample.call0 1000 None
              None (caller.stateAt 3) true None caller.ErrSmartContractNotDeployed ev
              eq_refl) as (H1 & H2 & _).
  done.
Defined.

(** X22: the state is finalised only after a successful non-static call
    that asks for it.  When [MakeCall] returns, its trace ends with
    [state.Finalise(true)] on the state it was given if the call
    returned no error and [finaliseState] is set, and holds no
    finalisation otherwise; a static call never finalises. *)
Theorem caller_finalise_only_on_success
    (vm : caller.VM) (c : caller.ContractCaller) (registryId : Z) (cl : caller.call)
    (gas : Z) (value : option Z) (header : option Header) (state : caller.StateDB)
    (finaliseState : bool) (gasLeft : Z) (e : option caller.err)
    (ev : list caller.event) :
  caller.MakeCall vm c registryId cl gas value header state finaliseState
    = Some ((gasLeft, e), ev) ->
  (if finaliseState && bool_decide (e = None)
   then exists ev0, ev = ev0 ++ [caller.Finalise state true] /\
          Forall (fun x => caller.isFinalise x = false) ev0
   else Forall (fun x => caller.isFinalise x = false) ev) /\
  (forall r, caller.MakeStaticCall vm c registryId cl gas header state = Some r ->
     Forall (fun x => caller.isFinalise x = false) r.2).
Proof.
  intros Hcall. split.
  - unfold caller.MakeCall in Hcall.
    destruct (caller.makeCallWithContractId vm c registryId cl gas value header
                state false) as [[[g e'] ev']|] eqn:Hm; [|done].
    pose proof (makeCallWithContractId_no_finalise _ _ _ _ _ _ _ _ _ _ Hm) as Hq.
    simpl in Hq. destruct e' as [err|].
    + simplify_eq. by rewrite andb_false_r.
    + destruct finaliseState; simpl.
      * destruct state; simplify_eq; by eexists.
      * by simplify_eq.
  - intros r Hr. by eapply makeCallWithContractId_no_finalise.
Qed.

Lemma caller_finalise_only_on_success_witness :
  exists ev0,
    [caller.RegistryLookup 1 (caller.mkEVM (sample.headerAt 9 0) (caller.stateAt 3));
     caller.Call (caller.mkEVM (sample.headerAt 9 0) (caller.stateAt 3)) 42
       sample.call0 1000 (Some 7);
     caller.TimerUpdateSince "contract_comm/systemcall/getValidators";
     caller.Finalise (caller.stateAt 3) true]
    = ev0 ++ [caller.Finalise (caller.stateAt 3) true] /\
    Forall (fun x => caller.isFinalise x = false) ev0.
Proof.
  exact (proj1 (caller_finalise_only_on_success sample.vm0 sample.caller0 1
                  sample.call0 1000 (Some 7) None (caller.stateAt 3) true
                  800 None _ eq_refl)).
Defined.

(** X23: [MakeCall] with a nil state cannot finalise.  When the state
    argument is the nil interface, the call runs on the chain's state;
    if it succeeds and [finaliseState] is set, [state.Finalise] is
    invoked on the nil interface and panics, whereas without
    [finaliseState] the result of the call is returned. *)
Theorem caller_MakeCall_nil_state_panics
    (vm : caller.VM) (c : caller.ContractCaller) (registryId : Z) (cl : caller.call)
    (gas : Z) (value : option Z) (header : option Header)
    (gasLeft : Z) (ev : list caller.event) :
  caller.MakeCall vm c registryId cl gas value header caller.nilInterface false
    = Some ((gasLeft, None), ev) ->
  caller.MakeCall vm c registryId cl gas value header caller.nilInterface true = None /\
  caller.ChainState ∈ ev /\
  exists x, x ∈ ev /\ caller.isContractCall x = true.
Proof.
  unfold caller.MakeCall. intros Hcall.
  destruct (caller.makeCallWithContractId vm c registryId cl gas value header
              caller.nilInterface false) as [[[g e'] ev']|] eqn:Hm; [|done].
  destruct e' as [err|]; simplify_eq. split; [done|].
  unfold caller.makeCallWithContractId, caller.GetRegisteredAddress in Hm.
  unfold caller.makeCallFromSystem in Hm.
  unfold caller.createEVM in Hm. simpl in Hm.
  destruct (caller.chain c) as [ch|]; [|simpl in Hm; by simplify_eq].
  destruct (caller.State ch) as [s [err|]]; [simpl in Hm; by simplify_eq|].
  simpl in Hm.
  destruct (caller.GetRegisteredAddressWithEvm vm registryId _) as [[a|] [err|]];
    simpl in Hm; simplify_eq.
  destruct (caller.CallFromSystem vm _ a cl gas value) as [g' [err|]];
    simpl in Hm; simplify_eq.
  split; [by left|]. eexists (caller.Call _ a cl gas value).
  split; [|done]. do 3 right. left.
Qed.

Lemma caller_MakeCall_nil_state_panics_witness :
  caller.MakeCall sample.vm0 sample.caller0 1 sample.call0 1000 (Some 7) None
    caller.nilInterface true = None.
Proof.
  exact (proj1 (caller_MakeCall_nil_state_panics sample.vm0 sample.caller0 1
                  sample.call0 1000 (Some 7) None 800 _ eq_refl)).
Defined.

(** X24: the trace of a call to a registered contract.  When the EVM
    can be built and the registry knows the contract, the lookup and the
    call run on EVMs of the same header and state (the chain's state
    being fetched once for each when none is given); a static call goes
    through [StaticCallFromSystem] and carries no value, another call
    goes through [CallFromSystem]; gas left and error are those of the
    call, and a failed call is logged twice, around the timer. *)
Theorem caller_registered_call
    (vm : caller.VM) (c : caller.ContractCaller) (registryId : Z) (cl : caller.call)
    (gas : Z) (value : option Z) (header : option Header) (state : caller.StateDB)
    (evm : caller.EVM) (evc : list caller.event) (a : Z) :
  caller.createEVM c header state = (inl evm, evc) ->
  caller.GetRegisteredAddressWithEvm vm registryId evm = (Some a, None) ->
  let timer := caller.TimerUpdateSince ("contract_comm/systemcall/" ++ caller.funcName cl) in
  let tail (e : option caller.err) :=
    match e with
    | Some _ => [caller.LogError "Error when invoking evm function"; timer;
                 caller.LogError "Error in executing function on registered contract"]
    | None => [timer]
    end in
  let rs := caller.StaticCallFromSystem vm evm a cl gas in
  let rc := caller.CallFromSystem vm evm a cl gas value in
  caller.MakeStaticCall vm c registryId cl gas header state =
    Some (rs, evc ++ [caller.RegistryLookup registryId evm] ++ evc ++
              [caller.StaticCall evm a cl gas] ++ tail rs.2) /\
  caller.MakeCall vm c registryId cl gas value header state false =
    Some (rc, evc ++ [caller.RegistryLookup registryId evm] ++ evc ++
              [caller.Call evm a cl gas value] ++ tail rc.2).
Proof.
  intros Hevm Hreg timer tail rs rc.
  assert (Hm : forall static : bool,
    caller.makeCallWithContractId vm c registryId cl gas
      (if static then @None Z else value) header state static =
    let res := if static then rs else rc in
    let evcall := if static then caller.StaticCall evm a cl gas
                  else caller.Call evm a cl gas value in
    Some (res, evc ++ [caller.RegistryLookup registryId evm] ++ evc ++
               [evcall] ++ tail res.2)).
  { intros static. unfold caller.makeCallWithContractId, caller.GetRegisteredAddress.
    rewrite Hevm, Hreg.
    rewrite (makeCallFromSystem_ok vm c a cl gas _ header state static evm evc Hevm).
    unfold rs, rc. destruct static; simpl.
    - destruct (caller.StaticCallFromSystem vm evm a cl gas) as [g [e|]]; simpl;
        by rewrite <- ?app_assoc.
    - destruct (caller.CallFromSystem vm evm a cl gas value) as [g [e|]]; simpl;
        by rewrite <- ?app_assoc. }
  split.
  - unfold caller.MakeStaticCall. by rewrite (Hm true).
  - unfold caller.MakeCall. rewrite (Hm false). simpl.
    fold rc. by destruct rc as [g [e|]].
Qed.

Lemma caller_registered_call_witness :
  let evm := caller.mkEVM (sample.headerAt 9 0) (caller.stateAt 3) in
  caller.MakeStaticCall sample.revertingVM sample.caller0 1 sample.call0 1000 None
    caller.nilPointer =
  Some ((995, Some (caller.ErrOther "reverted")),
        [caller.ChainState; caller.RegistryLookup 1 evm; caller.ChainState;
         caller.StaticCall evm 42 sample.call0 1000;
         caller.LogError "Error when invoking evm function";
         caller.TimerUpdateSince "contract_comm/systemcall/getValidators";
         caller.LogError "Error in executing function on registered contract"]).
Proof.
  intros evm.
  exact (proj1 (caller_registered_call sample.revertingVM sample.caller0 1
                  sample.call0 1000 None None caller.nilPointer evm
                  [caller.ChainState] 42 eq_refl eq_refl)).
Defined.

(** X25: the timer of a system call is updated exactly once, last, on
    every way out of [makeCallFromSystem]: when the EVM cannot be
    built, when the call fails and when it succeeds. *)
Theorem caller_timer_once
    (vm : caller.VM) (c : caller.ContractCaller) (scAddress : Z) (cl : caller.call)
    (gas : Z) (value : option Z) (header : option Header) (state : caller.StateDB)
    (static : bool) :
  exists ev0,
    (caller.makeCallFromSystem vm c scAddress cl gas value header state static).2 =
      ev0 ++ [caller.TimerUpdateSince
                ("contract_comm/systemcall/" ++ caller.funcName cl)] /\
    Forall (fun x => caller.isTimer x = false) ev0.
Proof.
  pose proof (createEVM_quiet c header state) as Hq.
  assert (Hq' : Forall (fun e => caller.isTimer e = false)
                  (caller.createEVM c header state).2).
  { eapply Forall_impl; [exact Hq|]. simpl. tauto. }
  destruct (caller.createEVM c header state) as [[evm|e] ev] eqn:Hevm; simpl in Hq'.
  - rewrite (makeCallFromSystem_ok vm c _ _ _ _ _ _ _ evm ev Hevm). simpl.
    assert (Hgen : forall (res : Z * option caller.err) (evcall : caller.event),
              caller.isTimer evcall = false ->
              exists ev0,
                ev ++ [evcall] ++
                  match res.2 with
                  | Some _ =>
                      [caller.LogError "Error when invoking evm function";
                       caller.TimerUpdateSince
                         ("contract_comm/systemcall/" ++ caller.funcName cl)]
                  | None =>
                      [caller.TimerUpdateSince
                         ("contract_comm/systemcall/" ++ caller.funcName cl)]
                  end =
                ev0 ++ [caller.TimerUpdateSince
                          ("contract_comm/systemcall/" ++ caller.funcName cl)] /\
                Forall (fun x => caller.isTimer x = false) ev0).
    { intros [g [e|]] evcall Hcall; simpl.
      - exists (ev ++ [evcall; caller.LogError "Error when invoking evm function"]).
        rewrite <- app_assoc. split; [done|].
        apply Forall_app. split; [done|]. by repeat constructor.
      - exists (ev ++ [evcall]). rewrite <- app_assoc. split; [done|].
        apply Forall_app. split; [done|]. by repeat constructor. }
    destruct static; by apply Hgen.
  - unfold caller.makeCallFromSystem. rewrite Hevm. simpl. by exists ev.
Qed.

(** ** start, stop, close *)






Lemma taskLoop_pendingTasks_keyed_witness :
  let w := sample.plainWorker in
  let t := sample.taskAt 5 in
  505 = taskLoop.sealHashOf w t /\ t ∈ [t].
Proof.
  intros w t.
  apply (proj1 (taskLoop_pendingTasks_keyed w [t]) 505 t).
  vm_compute. reflexivity.
Defined.
